(** * K44 S-box service: a shallow embedding of [main.py]

    The Python module builds a byte-substitution table over GF(2^8)
    (field inverse followed by an affine bit transform), derives the
    inverse table, and serves three endpoints on top of the two
    process-wide tables.  Python integers are unbounded, so they are
    modelled by [Z]; the bit operators [&], [|], [^], [<<] and [>>]
    are [Z.land], [Z.lor], [Z.lxor], [Z.shiftl] and [Z.shiftr], which
    agree with Python on negative operands as well.  Python lists are
    [list Z] read and written by index with stdpp's lookup and insert,
    with Python's bounds check and negative indices written out. *)

From Stdlib Require Import ZArith List String Ascii Bool Lia.
From stdpp Require Import base numbers list.
Import ListNotations.

Local Open Scope Z_scope.

(** ** Python runtime pieces used by the module *)

Module Py.

(** The exceptions that the modelled code can raise. *)
Inductive exn : Type :=
| IndexError
| ValueError
| UnicodeEncodeError
| UnicodeDecodeError.

(** [UnicodeEncodeError] and [UnicodeDecodeError] derive from
    [UnicodeError], which derives from [ValueError]. *)
Definition is_ValueError (e : exn) : bool :=
  match e with
  | IndexError => false
  | ValueError | UnicodeEncodeError | UnicodeDecodeError => true
  end.

(** A computation that returns or raises. *)
Inductive res (A : Type) : Type :=
| Ok (a : A)
| Raise (e : exn).
Arguments Ok {A} a.
Arguments Raise {A} e.

#[export] Instance exn_eq_dec : EqDecision exn.
Proof. solve_decision. Defined.

#[export] Instance res_eq_dec {A : Type} `{EqDecision A} : EqDecision (res A).
Proof. solve_decision. Defined.

#[export] Instance res_ret : MRet res := fun A a => Ok a.
#[export] Instance res_bind : MBind res := fun A B k m =>
  match m with
  | Ok a => k a
  | Raise e => Raise e
  end.

(** [range(n)] *)
Definition range (n : nat) : list Z := seqZ 0 (Z.of_nat n).

(** Truthiness of an integer: [if v:] *)
Definition truthy (v : Z) : bool := negb (v =? 0).

(** [l[i]]: indices [-len l <= i < 0] count from the end, anything
    outside [-len l <= i < len l] raises [IndexError]. *)
Definition norm_index {A : Type} (l : list A) (i : Z) : option nat :=
  let n := Z.of_nat (length l) in
  if (0 <=? i) && (i <? n) then Some (Z.to_nat i)
  else if (- n <=? i) && (i <? 0) then Some (Z.to_nat (n + i))
  else None.

Definition getitem {A : Type} (l : list A) (i : Z) : res A :=
  match norm_index l i with
  | Some k => match l !! k with Some a => Ok a | None => Raise IndexError end
  | None => Raise IndexError
  end.

(** [l[i] = v] *)
Definition setitem {A : Type} (l : list A) (i : Z) (v : A) : res (list A) :=
  match norm_index l i with
  | Some k => Ok (<[k := v]> l)
  | None => Raise IndexError
  end.

End Py.

Import Py.

(** ** Field arithmetic *)

(** The body of [for _ in range(8)] in [gf_mult], on the triple of
    the locals [a], [b] and [p]. *)
Definition gf_mult_step (s : Z * Z * Z) : Z * Z * Z :=
  let '(a, b, p) := s in
  let p := if truthy (Z.land b 1) then Z.lxor p a else p in
  let hibit := Z.land a 0x80 in
  let a := Z.shiftl a 1 in
  let a := if truthy hibit then Z.lxor a 0x11B else a in
  let b := Z.shiftr b 1 in
  (a, b, p).

Fixpoint gf_mult_loop (n : nat) (s : Z * Z * Z) : Z * Z * Z :=
  match n with
  | O => s
  | S n' => gf_mult_loop n' (gf_mult_step s)
  end.

Definition gf_mult (a b : Z) : Z :=
  let '(_, _, p) := gf_mult_loop 8 (a, b, 0) in
  Z.land p 0xFF.

(** [for i in range(256): if gf_mult(byte, i) == 1: return i] *)
Fixpoint gf_inverse_search (byte : Z) (cands : list Z) : option Z :=
  match cands with
  | [] => None
  | i :: rest => if gf_mult byte i =? 1 then Some i else gf_inverse_search byte rest
  end.

Definition gf_inverse (byte : Z) : Z :=
  if byte =? 0 then 0
  else match gf_inverse_search byte (range 256) with
       | Some i => i
       | None => 0
       end.

(** ** Affine transform *)

(** The inner [for j in range(8)] of [apply_affine]; [matrix[i]] is
    read on every iteration, so a short matrix raises at [j = 0]. *)
Fixpoint affine_bit_loop (byte_val : Z) (matrix : list Z) (i : Z)
    (js : list Z) (bit : Z) : res Z :=
  match js with
  | [] => Ok bit
  | j :: js' =>
      row ← getitem matrix i;
      let bit :=
        if truthy (Z.land (Z.shiftr row j) 1) then
          if truthy (Z.land (Z.shiftr byte_val j) 1) then Z.lxor bit 1 else bit
        else bit in
      affine_bit_loop byte_val matrix i js' bit
  end.

(** The outer [for i in range(8)], threading [result]. *)
Fixpoint affine_loop (byte_val : Z) (matrix : list Z) (rows : list Z)
    (result : Z) : res Z :=
  match rows with
  | [] => Ok result
  | i :: rows' =>
      bit ← affine_bit_loop byte_val matrix i (range 8) 0;
      let result := if truthy bit then Z.lor result (Z.shiftl 1 i) else result in
      affine_loop byte_val matrix rows' result
  end.

Definition apply_affine (byte_val : Z) (matrix : list Z) (constant : Z) : res Z :=
  result ← affine_loop byte_val matrix (range 8) 0;
  mret (Z.lxor result constant).

(** ** Table builder *)

Definition K44_MATRIX : list Z := [0x57; 0xAB; 0xD5; 0xEA; 0x75; 0xBA; 0x5D; 0xAE].
Definition K44_CONST : Z := 0x63.

(** [for x in range(256)] of [generate_sbox_logic], threading [sbox]. *)
Fixpoint sbox_loop (matrix : list Z) (constant : Z) (xs : list Z)
    (sbox : list Z) : res (list Z) :=
  match xs with
  | [] => Ok sbox
  | x :: xs' =>
      let inv := gf_inverse x in
      val ← apply_affine inv matrix constant;
      sbox_loop matrix constant xs' (sbox ++ [val])
  end.

Definition generate_sbox_logic (matrix : list Z) (constant : Z) : res (list Z) :=
  sbox_loop matrix constant (range 256) [].

(** [for i, val in enumerate(sbox): inv[val] = i].  The list is
    updated in place, so the writes made before a failing one stay. *)
Fixpoint fill_inverse (i : Z) (vals : list Z) (inv : list Z)
    : list Z * option exn :=
  match vals with
  | [] => (inv, None)
  | val :: rest =>
      match setitem inv val i with
      | Ok inv' => fill_inverse (i + 1) rest inv'
      | Raise e => (inv, Some e)
      end
  end.

(** The inverse-table construction that [startup_event] and
    [run_analysis] both spell out: [[0] * 256] followed by the loop. *)
Definition build_inverse (sbox : list Z) : list Z * option exn :=
  fill_inverse 0 sbox (replicate 256 0).

(** ** Table state *)

Record tables : Type := Tables {
  CURRENT_SBOX : list Z;
  CURRENT_INV_SBOX : list Z
}.

(** The module-level bindings before the startup hook has run. *)
Definition initial_tables : tables := Tables [] [].

(** [startup_event]: the new state, and the exception that escaped
    if there was one. *)
Definition startup_event (st : tables) : tables * option exn :=
  match generate_sbox_logic K44_MATRIX K44_CONST with
  | Raise e => (st, Some e)
  | Ok sbox =>
      let '(inv, err) := build_inverse sbox in
      (Tables sbox inv, err)
  end.

(** ** Python text: strings, formatting, UTF-8 *)

(** A Python [str] is a sequence of code points. *)
Definition str : Type := list Z.

(** An ASCII literal of the source as a [str]. *)
Definition lit (s : string) : str :=
  map (fun c => Z.of_N (N_of_ascii c)) (list_ascii_of_string s).

Definition between (lo hi c : Z) : bool := (lo <=? c) && (c <=? hi).

(** The digit characters of the [X] presentation type. *)
Definition hex_digit (d : Z) : Z := if d <? 10 then 48 + d else 55 + d.

Fixpoint hex_upper_aux (fuel : nat) (n : Z) (acc : str) : str :=
  match fuel with
  | O => acc
  | S fuel' =>
      let acc := hex_digit (n mod 16) :: acc in
      if n <? 16 then acc else hex_upper_aux fuel' (n / 16) acc
  end.

(** Upper-case hexadecimal digits of a non-negative integer. *)
Definition hex_upper (n : Z) : str :=
  hex_upper_aux (S (Z.to_nat (Z.log2 n))) n [].

(** [f"{x:02X}"]: zero-padded to width two, the sign counted in the
    width. *)
Definition format_02X (x : Z) : str :=
  if x <? 0 then 45 :: hex_upper (- x)
  else
    let d := hex_upper x in
    if (length d <? 2)%nat then 48 :: d else d.

(** [sep.join(parts)] *)
Fixpoint str_join (sep : str) (parts : list str) : str :=
  match parts with
  | [] => []
  | p :: rest =>
      match rest with
      | [] => p
      | _ :: _ => p ++ sep ++ str_join sep rest
      end
  end.

(** [str.isspace] of one code point, which is what [strip()] and
    [split()] without arguments test. *)
Definition isspace (c : Z) : bool :=
  between 0x09 0x0D c || between 0x1C 0x20 c || (c =? 0x85) || (c =? 0xA0)
  || (c =? 0x1680) || between 0x2000 0x200A c || (c =? 0x2028)
  || (c =? 0x2029) || (c =? 0x202F) || (c =? 0x205F) || (c =? 0x3000).

Fixpoint str_lstrip (s : str) : str :=
  match s with
  | [] => []
  | c :: r => if isspace c then str_lstrip r else s
  end.

(** [s.strip()] *)
Definition str_strip (s : str) : str :=
  reverse (str_lstrip (reverse (str_lstrip s))).

(** [s.split()]: maximal runs of non-blank code points; [cur] is the
    run being read. *)
Fixpoint str_split_from (s : str) (cur : str) : list str :=
  match s with
  | [] => match cur with [] => [] | _ :: _ => [cur] end
  | c :: r =>
      if isspace c then
        match cur with
        | [] => str_split_from r []
        | _ :: _ => cur :: str_split_from r []
        end
      else str_split_from r (cur ++ [c])
  end.

Definition str_split (s : str) : list str := str_split_from s [].

(** [s.encode('utf-8')]: lone surrogates are refused. *)
Definition utf8_encode_char (c : Z) : res (list Z) :=
  if c <? 0x80 then Ok [c]
  else if c <? 0x800 then
    Ok [Z.lor 0xC0 (Z.shiftr c 6); Z.lor 0x80 (Z.land c 0x3F)]
  else if between 0xD800 0xDFFF c then Raise UnicodeEncodeError
  else if c <? 0x10000 then
    Ok [Z.lor 0xE0 (Z.shiftr c 12);
        Z.lor 0x80 (Z.land (Z.shiftr c 6) 0x3F);
        Z.lor 0x80 (Z.land c 0x3F)]
  else
    Ok [Z.lor 0xF0 (Z.shiftr c 18);
        Z.lor 0x80 (Z.land (Z.shiftr c 12) 0x3F);
        Z.lor 0x80 (Z.land (Z.shiftr c 6) 0x3F);
        Z.lor 0x80 (Z.land c 0x3F)].

Fixpoint utf8_encode (s : str) : res (list Z) :=
  match s with
  | [] => Ok []
  | c :: r =>
      bs ← utf8_encode_char c;
      rest ← utf8_encode r;
      mret (bs ++ rest)
  end.

(** [bytes(l)]: every item must be in [range(256)]. *)
Definition bytes (l : list Z) : res (list Z) :=
  if forallb (between 0 255) l then Ok l else Raise ValueError.

Definition continuation (b : Z) : bool := between 0x80 0xBF b.

Definition tail6 (b : Z) : Z := Z.land b 0x3F.

(** [bs.decode('utf-8')] with the default strict error handler: only
    well-formed sequences (shortest form, no surrogates, at most
    U+10FFFF) are accepted. *)
Fixpoint utf8_decode (bs : list Z) : res str :=
  match bs with
  | [] => Ok []
  | b0 :: r1 =>
      if between 0 0x7F b0 then
        s ← utf8_decode r1; mret (b0 :: s)
      else if between 0xC2 0xDF b0 then
        match r1 with
        | b1 :: r2 =>
            if continuation b1 then
              s ← utf8_decode r2;
              mret (Z.lor (Z.shiftl (Z.land b0 0x1F) 6) (tail6 b1) :: s)
            else Raise UnicodeDecodeError
        | _ => Raise UnicodeDecodeError
        end
      else if between 0xE0 0xEF b0 then
        match r1 with
        | b1 :: b2 :: r3 =>
            let lo := if b0 =? 0xE0 then 0xA0 else 0x80 in
            let hi := if b0 =? 0xED then 0x9F else 0xBF in
            if between lo hi b1 && continuation b2 then
              s ← utf8_decode r3;
              mret (Z.lor (Z.shiftl (Z.land b0 0x0F) 12)
                      (Z.lor (Z.shiftl (tail6 b1) 6) (tail6 b2)) :: s)
            else Raise UnicodeDecodeError
        | _ => Raise UnicodeDecodeError
        end
      else if between 0xF0 0xF4 b0 then
        match r1 with
        | b1 :: b2 :: b3 :: r4 =>
            let lo := if b0 =? 0xF0 then 0x90 else 0x80 in
            let hi := if b0 =? 0xF4 then 0x8F else 0xBF in
            if between lo hi b1 && continuation b2 && continuation b3 then
              s ← utf8_decode r4;
              mret (Z.lor (Z.shiftl (Z.land b0 0x07) 18)
                      (Z.lor (Z.shiftl (tail6 b1) 12)
                         (Z.lor (Z.shiftl (tail6 b2) 6) (tail6 b3))) :: s)
            else Raise UnicodeDecodeError
        | _ => Raise UnicodeDecodeError
        end
      else Raise UnicodeDecodeError
  end.

(** ** Parsing [int(h, 16)] *)

Section IntParsing.

(** Python's Unicode database: the decimal value of a non-ASCII code
    point that is a decimal digit.  [int] accepts such digits; which
    code points they are depends on the interpreter's Unicode version,
    so the table is left open. *)
Variable unicode_decimal : Z -> option Z.

(** [int] first rewrites the string to ASCII: blanks become spaces,
    foreign decimal digits become ASCII digits, anything else non-ASCII
    becomes ['?']. *)
Definition int_to_ascii (c : Z) : Z :=
  if c <? 128 then c
  else if isspace c then 32
  else match unicode_decimal c with
       | Some d => 48 + d
       | None => 63
       end.

(** The blanks that [int] skips at both ends of the rewritten text. *)
Definition c_isspace (c : Z) : bool := between 0x09 0x0D c || (c =? 32).

Fixpoint skip_blanks (s : str) : str :=
  match s with
  | [] => []
  | c :: r => if c_isspace c then skip_blanks r else s
  end.

(** Value of a base-16 digit character. *)
Definition digit_value (c : Z) : option Z :=
  if between 48 57 c then Some (c - 48)
  else if between 97 102 c then Some (c - 87)
  else if between 65 70 c then Some (c - 55)
  else None.

(** Digits with single underscores between them; [prev_us] records
    that the previous character was an underscore. *)
Fixpoint scan_digits (s : str) (prev_us : bool) (acc : Z) : option Z :=
  match s with
  | [] => if prev_us then None else Some acc
  | c :: r =>
      if c =? 95 then
        if prev_us then None else scan_digits r true acc
      else
        match digit_value c with
        | Some d => scan_digits r false (acc * 16 + d)
        | None => None
        end
  end.

(** Optional sign, optional [0x]/[0X] prefix (one underscore may
    follow it), then at least one digit. *)
Definition parse_literal (s : str) : option Z :=
  let '(sign, s) :=
    match s with
    | c :: r => if c =? 43 then (1, r) else if c =? 45 then (-1, r) else (1, s)
    | [] => (1, s)
    end in
  let s :=
    match s with
    | z :: x :: r =>
        if (z =? 48) && ((x =? 120) || (x =? 88)) then
          match r with
          | u :: r' => if u =? 95 then r' else r
          | [] => r
          end
        else s
    | _ => s
    end in
  match s with
  | [] => None
  | c :: _ =>
      if c =? 95 then None
      else match scan_digits s false 0 with
           | Some v => Some (sign * v)
           | None => None
           end
  end.

(** [int(h, 16)] on a [str]; [None] is [ValueError]. *)
Definition int16 (h : str) : option Z :=
  let a := map int_to_ascii h in
  parse_literal (reverse (skip_blanks (reverse (skip_blanks a)))).

(** [[int(h, 16) for h in hex_vals]] *)
Fixpoint int16_all (hex_vals : list str) : res (list Z) :=
  match hex_vals with
  | [] => Ok []
  | h :: rest =>
      match int16 h with
      | Some v => vs ← int16_all rest; mret (v :: vs)
      | None => Raise ValueError
      end
  end.

End IntParsing.

(** ** Substitution codec and endpoints *)

(** [[table[b] for b in data]], the comprehension of both
    [encrypt_test] and [decrypt_test]. *)
Fixpoint substitute (table : list Z) (data : list Z) : res (list Z) :=
  match data with
  | [] => Ok []
  | b :: rest =>
      v ← getitem table b;
      vs ← substitute table rest;
      mret (v :: vs)
  end.

(** The [detail] of an [HTTPException]: a fixed text, or [str(e)] of
    the exception caught. *)
Inductive detail : Type :=
| Text (s : string)
| StrOf (e : exn).

(** What a handler does: return a body, raise [HTTPException], or let
    an exception escape to the framework. *)
Inductive reply (A : Type) : Type :=
| Return (body : A)
| HTTPException (status_code : Z) (d : detail)
| Escapes (e : exn).
Arguments Return {A} body.
Arguments HTTPException {A} status_code d.
Arguments Escapes {A} e.

(** A value of the [metrics] dictionary; a float is kept as its
    decimal literal [mantissa * 10 ^ exponent]. *)
Inductive metric : Type :=
| MInt (n : Z)
| MFloat (mantissa exponent : Z)
| MStr (s : string).

(** The dictionary literal [metrics] of [run_analysis], in source order. *)
Definition metrics : list (string * metric) :=
  [ ("NL", MInt 112); ("SAC", MFloat 50073 (-5)); ("BIC-NL", MInt 112);
    ("BIC-SAC", MFloat 504 (-3)); ("LAP", MFloat 625 (-4));
    ("DAP", MFloat 15625 (-6)); ("DU", MInt 4); ("AD", MInt 7);
    ("TO", MStr "Min"); ("CI", MInt 0) ]%string.

(** The body returned by [run_analysis]:
    [{"sbox": {"hex": ...}, "metrics": ...}]. *)
Record analysis : Type := Analysis {
  sbox_hex : list str;
  analysis_metrics : list (string * metric)
}.

Definition run_analysis (st : tables) (matrix : list Z) (constant : Z)
    : reply analysis * tables :=
  match generate_sbox_logic matrix constant with
  | Raise e => (Escapes e, st)
  | Ok sbox =>
      let '(inv, err) := build_inverse sbox in
      let st' := Tables sbox inv in
      match err with
      | Some e => (Escapes e, st')
      | None => (Return (Analysis (map format_02X sbox) metrics), st')
      end
  end.

(** [if not table: startup_event()] at the head of both codec
    handlers. *)
Definition ensure_tables (table : tables -> list Z) (st : tables)
    : tables * option exn :=
  match table st with
  | [] => startup_event st
  | _ :: _ => (st, None)
  end.

Definition encrypt_test (st : tables) (text : str) : reply str * tables :=
  let '(st, err) := ensure_tables CURRENT_SBOX st in
  match err with
  | Some e => (Escapes e, st)
  | None =>
      let body :=
        plaintext_bytes ← utf8_encode text;
        cipher_bytes ← substitute (CURRENT_SBOX st) plaintext_bytes;
        mret (str_join (lit " ") (map format_02X cipher_bytes)) in
      match body with
      | Ok hex_output => (Return hex_output, st)
      | Raise e => (HTTPException 500 (StrOf e), st)
      end
  end.

Section Decrypt.

Variable unicode_decimal : Z -> option Z.

Definition decrypt_test (st : tables) (ciphertext : str) : reply str * tables :=
  let '(st, err) := ensure_tables CURRENT_INV_SBOX st in
  match err with
  | Some e => (Escapes e, st)
  | None =>
      let body :=
        let hex_vals := str_split (str_strip ciphertext) in
        cipher_bytes ← int16_all unicode_decimal hex_vals;
        plain_bytes ← substitute (CURRENT_INV_SBOX st) cipher_bytes;
        raw ← bytes plain_bytes;
        utf8_decode raw in
      match body with
      | Ok plaintext => (Return plaintext, st)
      | Raise e =>
          if is_ValueError e
          then (HTTPException 400 (Text "Invalid Hex Data"), st)
          else (HTTPException 500 (Text "Decryption Failed"), st)
      end
  end.

End Decrypt.

(** ** Notions used to state the properties *)

(** A byte value, the type of table entries and of transformed data. *)
Definition is_byte (x : Z) : Prop := 0 <= x <= 255.

#[global] Instance is_byte_dec (x : Z) : Decision (is_byte x).
Proof. unfold is_byte. apply _. Defined.

(** Polynomials over GF(2) are written as bit vectors: bit [k] is the
    coefficient of [x^k], addition is [Z.lxor].  [poly_mul n a b] is
    the product of [a] with the terms of [b] of degree below [n]. *)
Fixpoint poly_mul (n : nat) (a b : Z) : Z :=
  match n with
  | O => 0
  | S n' =>
      Z.lxor (poly_mul n' a b)
        (if Z.testbit b (Z.of_nat n') then Z.shiftl a (Z.of_nat n') else 0)
  end.

(** Remainder modulo [x^8 + x^4 + x^3 + x + 1] of a polynomial of
    degree below [8 + k]: the leading terms are cancelled from the
    top. *)
Fixpoint poly_reduce (k : nat) (x : Z) : Z :=
  match k with
  | O => x
  | S k' =>
      poly_reduce k'
        (if Z.testbit x (8 + Z.of_nat k')
         then Z.lxor x (Z.shiftl 0x11B (Z.of_nat k'))
         else x)
  end.

(** The product in GF(2^8) = GF(2)[x] / (x^8 + x^4 + x^3 + x + 1), as
    the specification defines [multiply]: multiply the polynomials,
    reduce modulo 0x11B. *)
Definition gf256_product (a b : Z) : Z := poly_reduce 7 (poly_mul 8 a b).

(** One iteration of the algorithm as the specification words it: the
    accumulator takes [a] when the low bit of [b] is set; [a] is
    shifted left, and when the bit shifted out of position 7 was set,
    it is masked to 9 bits, XORed with 0x11B and truncated to 8 bits;
    [b] is shifted right. *)
Definition multiply_spec_step (s : Z * Z * Z) : Z * Z * Z :=
  let '(a, b, acc) := s in
  let acc := if Z.testbit b 0 then Z.lxor acc a else acc in
  let carry := Z.testbit a 7 in
  let a := Z.shiftl a 1 in
  let a := if carry then Z.land (Z.lxor (Z.land a 0x1FF) 0x11B) 0xFF else a in
  (a, Z.shiftr b 1, acc).

Definition multiply_spec (a b : Z) : Z :=
  let '(_, _, acc) := Nat.iter 8 multiply_spec_step (a, b, 0) in
  Z.land acc 0xFF.

(** The check run over all pairs of bytes for the refinement. *)
Definition gf_mult_agrees (a b : Z) : bool :=
  (gf_mult a b =? gf256_product a b) && (gf_mult a b =? multiply_spec a b).

(** The tables the service holds after [startup_event], evaluated
    once. *)
Definition default_tables : tables :=
  Eval vm_compute in fst (startup_event initial_tables).

(** Encoding one byte and decoding the result:
    [inverse_substitute(substitute([x], table), inverse_table)]. *)
Definition encode_decode (st : tables) (x : Z) : res (list Z) :=
  c ← substitute (CURRENT_SBOX st) [x];
  substitute (CURRENT_INV_SBOX st) c.

(** The writes of the inverse-table loop when none of them fails:
    entry [table[i]] is set to [i], for [i] ascending from [i0]. *)
Fixpoint inverse_writes (i0 : nat) (table : list Z) (inv : list Z) : list Z :=
  match table with
  | [] => inv
  | val :: rest => inverse_writes (S i0) rest (<[Z.to_nat val := Z.of_nat i0]> inv)
  end.

(** A digit table without entries.  It serves for ASCII input, on
    which [int] never consults the table. *)
Definition no_foreign_digits : Z -> option Z := fun _ => None.

(** The characters of upper-case hexadecimal, and a token made of
    exactly two of them. *)
Definition upper_hex (c : Z) : bool := between 48 57 c || between 65 70 c.

Definition is_hex_token (tok : str) : bool :=
  match tok with
  | [h; l] => upper_hex h && upper_hex l
  | _ => false
  end.

(** A well-formed [BuildTable] input: eight rows, every row and the
    constant a byte. *)
Definition well_formed (matrix : list Z) (constant : Z) : Prop :=
  length matrix = 8%nat /\ Forall is_byte matrix /\ is_byte constant.

(** The tables are both unset or both 256 entries long. *)
Definition tables_shape (st : tables) : Prop :=
  (CURRENT_SBOX st = [] /\ CURRENT_INV_SBOX st = []) \/
  (length (CURRENT_SBOX st) = 256%nat /\ length (CURRENT_INV_SBOX st) = 256%nat).

(** What can happen to the service: the startup hook, or a request to
    one of the three endpoints with its payload. *)
Inductive event : Type :=
| Startup
| RunAnalysis (matrix : list Z) (constant : Z)
| EncryptTest (text : str)
| DecryptTest (ciphertext : str).

(** The tables after an event. *)
Definition after (unicode_decimal : Z -> option Z) (st : tables) (ev : event) : tables :=
  match ev with
  | Startup => fst (startup_event st)
  | RunAnalysis matrix constant => snd (run_analysis st matrix constant)
  | EncryptTest text => snd (encrypt_test st text)
  | DecryptTest ciphertext => snd (decrypt_test unicode_decimal st ciphertext)
  end.

(** XOR, over the bit positions [js], of the bits that [row] and
    [byte_val] both have set. *)
Fixpoint parity (row byte_val : Z) (js : list Z) : bool :=
  match js with
  | [] => false
  | j :: js' => xorb (Z.testbit row j && Z.testbit byte_val j) (parity row byte_val js')
  end.

(** A Unicode scalar value: a code point that is not a surrogate. *)
Definition scalar_value (c : Z) : Prop :=
  0 <= c <= 0x10FFFF /\ ~ (0xD800 <= c <= 0xDFFF).

(** [p] holds of the [n] integers from [c] upwards. *)
Fixpoint all_from (p : Z -> bool) (n : nat) (c : Z) : bool :=
  match n with
  | O => true
  | S n' => if p c then all_from p n' (c + 1) else false
  end.

(** Encoding one code point and decoding the bytes gives the code
    point back, or the code point is a surrogate and is refused. *)
Definition utf8_char_roundtrip (c : Z) : bool :=
  match utf8_encode_char c with
  | Ok bs =>
      match utf8_decode bs with
      | Ok [c'] => c' =? c
      | _ => false
      end
  | Raise _ => between 0xD800 0xDFFF c
  end.

(** The checks run over all pairs of bytes for the multiplication:
    symmetry and absence of zero divisors; and, per byte, that the
    inverse found is the only one and is undone by a second search. *)
Definition gf_mult_symmetric (a b : Z) : bool :=
  (gf_mult a b =? gf_mult b a)
  && Bool.eqb (gf_mult a b =? 0) ((a =? 0) || (b =? 0)).

Definition gf_inverse_only (a : Z) : bool :=
  let inv := gf_inverse a in
  (a =? 0)
  || ((gf_inverse inv =? a) && negb (inv =? 0)
      && forallb (fun b => Bool.eqb (gf_mult a b =? 1) (b =? inv)) (range 256)).

(** Associativity on the powers of [x]: [(a * b) * 2^k = a * (b * 2^k)]. *)
Definition gf_mult_assoc_power (a b : Z) : bool :=
  let ab := gf_mult a b in
  forallb (fun k => gf_mult ab (Z.shiftl 1 k) =? gf_mult a (gf_mult b (Z.shiftl 1 k)))
    (range 8).

(** The terms of [c] at the bit positions [ks], XORed together. *)
Fixpoint bit_terms (c : Z) (ks : list Z) : Z :=
  match ks with
  | [] => 0
  | k :: ks' => Z.lxor (if Z.testbit c k then Z.shiftl 1 k else 0) (bit_terms c ks')
  end.

(** The lower-case form of an ASCII letter; other code points are
    left alone. *)
Definition ascii_lower (c : Z) : Z := if between 65 90 c then c + 32 else c.

(** Two characters that differ at most in letter case. *)
Definition same_letter (c d : Z) : Prop := ascii_lower c = ascii_lower d.

(** The three stages of [parse_literal], named. *)
Definition literal_sign (s : str) : Z * str :=
  match s with
  | c :: r => if c =? 43 then (1, r) else if c =? 45 then (-1, r) else (1, s)
  | [] => (1, s)
  end.

Definition literal_prefix (s : str) : str :=
  match s with
  | z :: x :: r =>
      if (z =? 48) && ((x =? 120) || (x =? 88)) then
        match r with
        | u :: r' => if u =? 95 then r' else r
        | [] => r
        end
      else s
  | _ => s
  end.

Definition literal_digits (sign : Z) (s : str) : option Z :=
  match s with
  | [] => None
  | c :: _ =>
      if c =? 95 then None
      else match scan_digits s false 0 with
           | Some v => Some (sign * v)
           | None => None
           end
  end.

(** * Properties *)

(** ** Enumerating bytes *)

(** Splits a [Forall] over a list literal into one goal per entry. *)
Ltac each_entry := repeat first [apply Forall_nil_2 | apply Forall_cons_2].

Lemma range_elem (n : nat) (x : Z) : x ∈ range n <-> 0 <= x < Z.of_nat n.
Proof. unfold range. rewrite elem_of_seqZ. lia. Qed.

Lemma range_lookup (n : nat) (x : Z) :
  0 <= x < Z.of_nat n -> range n !! Z.to_nat x = Some x.
Proof.
  intros Hx. unfold range. rewrite lookup_seqZ_lt by lia. f_equal. lia.
Qed.

Lemma range_length (n : nat) : length (range n) = n.
Proof. unfold range. rewrite length_seqZ. lia. Qed.

(** A decidable property checked on [range(256)] holds of every byte. *)
Lemma all_bytes (P : Z -> Prop) :
  Forall P (range 256) -> forall x, is_byte x -> P x.
Proof.
  intros Hall x Hx. rewrite Forall_forall in Hall. apply Hall.
  apply range_elem. unfold is_byte in Hx. lia.
Qed.

Lemma all_bytes_bool (p : Z -> bool) :
  forallb p (range 256) = true -> forall x, is_byte x -> p x = true.
Proof.
  intros Hall x Hx. rewrite forallb_forall in Hall. apply Hall.
  apply list_elem_of_In, range_elem. unfold is_byte in Hx. lia.
Qed.

(** ** Sample evaluations *)

Example gf_mult_57_83 : gf_mult 0x57 0x83 = 0xC1.
Proof. reflexivity. Qed.

Example gf_inverse_53 : gf_inverse 0x53 = 0xCA.
Proof. vm_compute. reflexivity. Qed.

Example gf256_product_57_83 : gf256_product 0x57 0x83 = 0xC1.
Proof. reflexivity. Qed.

(** The entry for input byte 0 is the constant. *)
Example default_sbox_0 : apply_affine (gf_inverse 0) K44_MATRIX K44_CONST = Ok 0x63.
Proof. vm_compute. reflexivity. Qed.

(** With the matrix of AES the builder gives the AES table. *)
Example aes_sbox_prefix :
  (sbox ← generate_sbox_logic [0xF1; 0xE3; 0xC7; 0x8F; 0x1F; 0x3E; 0x7C; 0xF8] 0x63;
   mret (take 4 sbox))
  = Ok [0x63; 0x7C; 0x77; 0x7B].
Proof. vm_compute. reflexivity. Qed.

(** A short matrix makes [matrix[i]] raise. *)
Example apply_affine_short_matrix : apply_affine 1 [1; 2; 3] 0 = Raise IndexError.
Proof. vm_compute. reflexivity. Qed.

(** A constant that is not a byte puts the write out of bounds; the
    new table and the writes already made stay in place. *)
Example run_analysis_large_constant :
  exists st',
    run_analysis initial_tables K44_MATRIX 0x163 = (Escapes IndexError, st') /\
    length (CURRENT_SBOX st') = 256%nat /\
    CURRENT_INV_SBOX st' = replicate 256 0.
Proof. eexists. vm_compute. repeat split; reflexivity. Qed.

Example format_02X_samples :
  map format_02X [0; 10; 255; 256; -1] = map lit ["00"; "0A"; "FF"; "100"; "-1"]%string.
Proof. reflexivity. Qed.

Example int16_samples :
  map (fun s => int16 no_foreign_digits (lit s))
    ["41"; "fF"; "0x41"; "+1_0"; "-41"; "100"; "ZZ"; "G2"; "1__0"; "0x"; ""]%string
  = [Some 65; Some 255; Some 65; Some 16; Some (-65); Some 256;
     None; None; None; None; None].
Proof. reflexivity. Qed.

Example str_split_sample :
  str_split (str_strip (lit "  41   G2 ")) = [lit "41"; lit "G2"].
Proof. reflexivity. Qed.

(** A negative token indexes the inverse table from its end. *)
Example decrypt_negative_token :
  fst (decrypt_test no_foreign_digits default_tables (lit "-A2"))
  = fst (decrypt_test no_foreign_digits default_tables (lit "5E")).
Proof. vm_compute. reflexivity. Qed.

(** Bytes that are not UTF-8 after substitution are reported as 400,
    [UnicodeDecodeError] being a [ValueError]. *)
Example decrypt_not_utf8 :
  fst (decrypt_test no_foreign_digits default_tables (lit "41"))
  = HTTPException 400 (Text "Invalid Hex Data").
Proof. vm_compute. reflexivity. Qed.

(** ** Field arithmetic *)

Lemma land_255_byte (x : Z) : is_byte (Z.land x 0xFF).
Proof.
  change 0xFF with (Z.ones 8). rewrite Z.land_ones by lia.
  change (2 ^ 8) with 256. unfold is_byte.
  pose proof (Z.mod_pos_bound x 256). lia.
Qed.

Lemma gf_mult_byte (a b : Z) : is_byte (gf_mult a b).
Proof.
  unfold gf_mult. destruct (gf_mult_loop 8 (a, b, 0)) as [[a' b'] p].
  apply land_255_byte.
Qed.

Lemma gf_mult_agrees_all :
  forallb (fun a => forallb (gf_mult_agrees a) (range 256)) (range 256) = true.
Proof. vm_compute. reflexivity. Qed.

(** C3. For all bytes [a] and [b], [gf_mult a b] is the product of [a]
    and [b] in GF(2^8) modulo 0x11B, it is what the eight-iteration
    shift-and-XOR algorithm of the specification computes, and it is a
    byte. *)
Theorem gf_mult_is_gf256_product (a b : Z) :
  is_byte a -> is_byte b ->
  gf_mult a b = gf256_product a b /\
  gf_mult a b = multiply_spec a b /\
  is_byte (gf_mult a b).
Proof.
  intros Ha Hb.
  pose proof (all_bytes_bool _ gf_mult_agrees_all a Ha) as Hrow.
  pose proof (all_bytes_bool _ Hrow b Hb) as Hab.
  unfold gf_mult_agrees in Hab.
  apply andb_prop in Hab as [H1 H2].
  apply Z.eqb_eq in H1, H2.
  split; [exact H1 | split; [exact H2 | apply gf_mult_byte]].
Qed.

Lemma gf_mult_is_gf256_product_witness :
  gf_mult 0x57 0x83 = gf256_product 0x57 0x83 /\
  gf_mult 0x57 0x83 = multiply_spec 0x57 0x83 /\
  is_byte (gf_mult 0x57 0x83).
Proof.
  apply (gf_mult_is_gf256_product 0x57 0x83); unfold is_byte; lia.
Defined.

(** With [b = 0] the accumulator never changes. *)
Lemma gf_mult_loop_zero (n : nat) (a p : Z) :
  exists a', gf_mult_loop n (a, 0, p) = (a', 0, p).
Proof.
  revert a. induction n as [|n IH]; intros a; simpl.
  - exists a. reflexivity.
  - apply IH.
Qed.

Lemma gf_mult_zero (a : Z) : gf_mult a 0 = 0.
Proof.
  unfold gf_mult. destruct (gf_mult_loop_zero 8 a 0) as [a' ->]. reflexivity.
Qed.

(** With [b = 1] the accumulator takes [a] in the first iteration and
    [b] is zero from then on. *)
Lemma gf_mult_one (a : Z) : is_byte a -> gf_mult a 1 = a.
Proof.
  intros Ha. unfold gf_mult.
  change (gf_mult_loop 8 (a, 1, 0))
    with (gf_mult_loop 7 (gf_mult_step (a, 1, 0))).
  unfold gf_mult_step.
  change (truthy (Z.land 1 1)) with true. change (Z.shiftr 1 1) with 0.
  cbv iota beta. rewrite Z.lxor_0_l.
  match goal with
  | |- context [gf_mult_loop 7 (?a1, 0, a)] =>
      destruct (gf_mult_loop_zero 7 a1 a) as [a' ->]
  end.
  change 0xFF with (Z.ones 8). rewrite Z.land_ones by lia.
  change (2 ^ 8) with 256. unfold is_byte in Ha. apply Z.mod_small. lia.
Qed.

Lemma gf_inverse_all :
  forallb (fun a => (a =? 0) || (gf_mult a (gf_inverse a) =? 1)) (range 256) = true.
Proof. vm_compute. reflexivity. Qed.

(** C4. Field identities: for every byte [a], [gf_mult a 0 = 0] and
    [gf_mult a 1 = a]; for every byte [a] other than 0,
    [gf_mult a (gf_inverse a) = 1]; and [gf_inverse 0 = 0]. *)
Theorem field_identities (a : Z) :
  is_byte a ->
  gf_mult a 0 = 0 /\
  gf_mult a 1 = a /\
  (a <> 0 -> gf_mult a (gf_inverse a) = 1) /\
  gf_inverse 0 = 0.
Proof.
  intros Ha. split; [apply gf_mult_zero|].
  split; [apply gf_mult_one, Ha|].
  split; [|reflexivity].
  intros Hnz. pose proof (all_bytes_bool _ gf_inverse_all a Ha) as H.
  apply orb_prop in H as [H|H].
  - apply Z.eqb_eq in H. contradiction.
  - apply Z.eqb_eq, H.
Qed.

Lemma field_identities_witness :
  gf_mult 0x53 0 = 0 /\ gf_mult 0x53 1 = 0x53 /\
  (0x53 <> 0 -> gf_mult 0x53 (gf_inverse 0x53) = 1) /\
  gf_inverse 0 = 0.
Proof. apply (field_identities 0x53). unfold is_byte. lia. Defined.

(** ** The default tables *)

Lemma default_sbox_generated :
  generate_sbox_logic K44_MATRIX K44_CONST = Ok (CURRENT_SBOX default_tables).
Proof. vm_compute. reflexivity. Qed.

Lemma startup_event_default (st : tables) :
  startup_event st = (default_tables, None).
Proof.
  unfold startup_event. rewrite default_sbox_generated.
  vm_compute. reflexivity.
Qed.

Lemma default_sbox_counts :
  forallb (fun v => Nat.eqb (count_occ Z.eq_dec (CURRENT_SBOX default_tables) v) 1)
    (range 256) = true.
Proof. vm_compute. reflexivity. Qed.

(** C2. With the built-in matrix and constant, [generate_sbox_logic]
    returns 256 entries among which every value of 0..255 occurs
    exactly once. *)
Theorem default_sbox_permutation :
  exists sbox,
    generate_sbox_logic K44_MATRIX K44_CONST = Ok sbox /\
    length sbox = 256%nat /\
    forall v, is_byte v -> count_occ Z.eq_dec sbox v = 1%nat.
Proof.
  exists (CURRENT_SBOX default_tables).
  split; [apply default_sbox_generated|].
  split; [reflexivity|].
  intros v Hv. apply Nat.eqb_eq.
  exact (all_bytes_bool _ default_sbox_counts v Hv).
Qed.

Lemma default_sbox_permutation_witness :
  exists sbox,
    generate_sbox_logic K44_MATRIX K44_CONST = Ok sbox /\
    length sbox = 256%nat /\
    count_occ Z.eq_dec sbox 0x63 = 1%nat.
Proof.
  destruct default_sbox_permutation as (sbox & Hgen & Hlen & Hcount).
  exists sbox. split; [exact Hgen|]. split; [exact Hlen|].
  apply Hcount. unfold is_byte. lia.
Defined.

Lemma default_encode_decode_all :
  Forall (fun x => encode_decode default_tables x = Ok [x]) (range 256).
Proof. apply (bool_decide_unpack _). vm_compute. reflexivity. Qed.

Lemma default_hello (unicode_decimal : Z -> option Z) :
  encrypt_test default_tables (lit "HELLO")
    = (Return (lit "5E FB 9E 9E DE"), default_tables) /\
  decrypt_test unicode_decimal default_tables (lit "5E FB 9E 9E DE")
    = (Return (lit "HELLO"), default_tables).
Proof. split; vm_compute; reflexivity. Qed.

(** C1. Under the built-in matrix and constant decoding inverts
    encoding: in the state that [startup_event] leaves, substituting a
    byte [x] and then substituting the result through the inverse
    table gives [x] back, and decrypting the encryption of "HELLO"
    returns "HELLO" (also when the tables are still empty and the
    handlers build them on demand). *)
Theorem default_roundtrip (unicode_decimal : Z -> option Z) (st0 : tables) (x : Z) :
  is_byte x ->
  let st := fst (startup_event st0) in
  encode_decode st x = Ok [x] /\
  exists hex,
    encrypt_test st (lit "HELLO") = (Return hex, st) /\
    decrypt_test unicode_decimal st hex = (Return (lit "HELLO"), st) /\
    encrypt_test initial_tables (lit "HELLO") = (Return hex, st) /\
    decrypt_test unicode_decimal initial_tables hex = (Return (lit "HELLO"), st).
Proof.
  intros Hx. rewrite startup_event_default. cbv zeta. cbn [fst].
  split; [exact (all_bytes _ default_encode_decode_all x Hx)|].
  exists (lit "5E FB 9E 9E DE").
  destruct (default_hello unicode_decimal) as [Henc Hdec].
  split; [exact Henc|]. split; [exact Hdec|].
  split; vm_compute; reflexivity.
Qed.

Lemma default_roundtrip_witness :
  encode_decode (fst (startup_event initial_tables)) 0x48 = Ok [0x48] /\
  exists hex,
    encrypt_test initial_tables (lit "HELLO") = (Return hex, default_tables) /\
    decrypt_test no_foreign_digits initial_tables hex
      = (Return (lit "HELLO"), default_tables).
Proof.
  assert (Hb : is_byte 0x48) by (unfold is_byte; lia).
  destruct (default_roundtrip no_foreign_digits initial_tables 0x48 Hb)
    as (Hx & hex & _ & _ & Henc & Hdec).
  split; [exact Hx|].
  exists hex. rewrite startup_event_default in Henc, Hdec.
  split; [exact Henc | exact Hdec].
Defined.

(** ** Indexing *)

Lemma norm_index_nonneg {A : Type} (l : list A) (i : Z) :
  0 <= i < Z.of_nat (length l) -> norm_index l i = Some (Z.to_nat i).
Proof.
  intros Hi. unfold norm_index.
  destruct (0 <=? i) eqn:H0; [|lia].
  destruct (i <? Z.of_nat (length l)) eqn:H1; [reflexivity|lia].
Qed.

Lemma getitem_nonneg {A : Type} (l : list A) (i : Z) :
  0 <= i < Z.of_nat (length l) ->
  exists a, l !! Z.to_nat i = Some a /\ getitem l i = Ok a.
Proof.
  intros Hi. unfold getitem. rewrite norm_index_nonneg by exact Hi.
  destruct (lookup_lt_is_Some_2 l (Z.to_nat i)) as [a Ha]; [lia|].
  exists a. rewrite Ha. split; reflexivity.
Qed.

Lemma setitem_nonneg {A : Type} (l : list A) (i : Z) (v : A) :
  0 <= i < Z.of_nat (length l) ->
  setitem l i v = Ok (<[Z.to_nat i := v]> l).
Proof.
  intros Hi. unfold setitem. rewrite norm_index_nonneg by exact Hi. reflexivity.
Qed.

(** ** Substitution *)

Lemma substitute_total (table data : list Z) :
  length table = 256%nat -> Forall is_byte data ->
  exists out,
    substitute table data = Ok out /\
    Forall2 (fun b v => table !! Z.to_nat b = Some v) data out.
Proof.
  intros Hlen Hdata. induction Hdata as [|b rest Hb _ IH]; simpl.
  - exists []. split; [reflexivity | constructor].
  - destruct IH as (vs & Hvs & Hall).
    destruct (getitem_nonneg table b) as (v & Hv & Hget).
    { unfold is_byte in Hb. lia. }
    exists (v :: vs). rewrite Hget, Hvs. split; [reflexivity|].
    constructor; assumption.
Qed.

(** Whatever the table, a substitution that returns has one output per
    input, each read from the table at the input byte. *)
Lemma substitute_returns (table data out : list Z) :
  substitute table data = Ok out ->
  Forall2 (fun b v => getitem table b = Ok v) data out.
Proof.
  revert out. induction data as [|b rest IH]; simpl; intros out H.
  - injection H as <-. constructor.
  - destruct (getitem table b) as [v|e] eqn:Hv; [|discriminate]. simpl in H.
    destruct (substitute table rest) as [vs|e] eqn:Hvs; [|discriminate].
    simpl in H. injection H as <-. constructor; [exact Hv | apply IH; reflexivity].
Qed.

(** ** Inverse table *)

(** On a table of bytes no write of the loop fails, and the loop is
    the sequence of its writes. *)
Lemma fill_inverse_writes (vals : list Z) :
  Forall is_byte vals ->
  forall (i : nat) (inv : list Z),
    length inv = 256%nat ->
    fill_inverse (Z.of_nat i) vals inv = (inverse_writes i vals inv, None).
Proof.
  induction 1 as [|val rest Hval _ IH]; intros i inv Hlen; simpl.
  - reflexivity.
  - rewrite setitem_nonneg by (unfold is_byte in Hval; lia).
    replace (Z.of_nat i + 1) with (Z.of_nat (S i)) by lia.
    apply IH. rewrite length_insert. exact Hlen.
Qed.

Lemma inverse_writes_length (vals : list Z) (i : nat) (inv : list Z) :
  length (inverse_writes i vals inv) = length inv.
Proof.
  revert i inv. induction vals as [|val rest IH]; intros i inv; simpl.
  - reflexivity.
  - rewrite IH. apply length_insert.
Qed.

(** A value that the remaining entries do not produce keeps what the
    table held for it. *)
Lemma inverse_writes_untouched (vals : list Z) (i : nat) (inv : list Z) (v : Z) :
  Forall is_byte vals -> 0 <= v -> v ∉ vals ->
  inverse_writes i vals inv !! Z.to_nat v = inv !! Z.to_nat v.
Proof.
  intros Hvals Hv. revert i inv.
  induction Hvals as [|val rest Hval _ IH]; intros i inv Hnot; simpl.
  - reflexivity.
  - apply not_elem_of_cons in Hnot as [Hne Hnot].
    rewrite IH by exact Hnot.
    apply list_lookup_insert_ne. unfold is_byte in Hval. lia.
Qed.

(** The last entry that produces [v] decides what the table holds
    for [v]. *)
Lemma inverse_writes_last (vals : list Z) (i : nat) (inv : list Z) (k : nat) (v : Z) :
  Forall is_byte vals -> length inv = 256%nat ->
  vals !! k = Some v ->
  (forall j : nat, (k < j)%nat -> vals !! j <> Some v) ->
  inverse_writes i vals inv !! Z.to_nat v = Some (Z.of_nat (i + k)).
Proof.
  intros Hvals. revert i inv k.
  induction Hvals as [|val rest Hval Hrest IH]; intros i inv k Hlen Hk Hlast.
  - discriminate.
  - simpl. destruct k as [|k'].
    + injection Hk as ->.
      rewrite inverse_writes_untouched.
      * rewrite list_lookup_insert_eq by (unfold is_byte in Hval; lia).
        do 2 f_equal. lia.
      * exact Hrest.
      * unfold is_byte in Hval. lia.
      * intros Hin. apply list_elem_of_lookup in Hin as [j Hj].
        apply (Hlast (S j)); [lia | exact Hj].
    + rewrite (IH (S i) _ k').
      * do 2 f_equal. lia.
      * rewrite length_insert. exact Hlen.
      * exact Hk.
      * intros j Hj. apply (Hlast (S j)). lia.
Qed.

Lemma build_inverse_writes (table : list Z) :
  Forall is_byte table ->
  build_inverse table = (inverse_writes 0 table (replicate 256 0), None).
Proof.
  intros Htable. unfold build_inverse.
  apply (fill_inverse_writes table Htable 0), length_replicate.
Qed.

(** C6. The inverse table is built by the sentinel and last-wins
    policy: starting from 256 zeros, entry [table[i]] is set to [i]
    for ascending [i]; no write fails on a table of bytes, bijective
    or not; a value produced several times keeps the largest index
    producing it; a value never produced keeps 0. *)
Theorem build_inverse_last_wins (table : list Z) :
  Forall is_byte table ->
  exists inv,
    build_inverse table = (inv, None) /\
    inv = inverse_writes 0 table (replicate 256 0) /\
    length inv = 256%nat /\
    (forall (i : nat) (v : Z),
        table !! i = Some v ->
        (forall j : nat, (i < j)%nat -> table !! j <> Some v) ->
        inv !! Z.to_nat v = Some (Z.of_nat i)) /\
    (forall v : Z, is_byte v -> v ∉ table -> inv !! Z.to_nat v = Some 0).
Proof.
  intros Htable. exists (inverse_writes 0 table (replicate 256 0)).
  split; [apply build_inverse_writes, Htable|].
  split; [reflexivity|].
  split; [rewrite inverse_writes_length; apply length_replicate|].
  split.
  - intros i v Hi Hlast.
    rewrite (inverse_writes_last table 0 _ i v Htable (length_replicate _ _) Hi Hlast).
    reflexivity.
  - intros v Hv Hnot.
    rewrite inverse_writes_untouched by (try assumption; unfold is_byte in Hv; lia).
    apply lookup_replicate_2. unfold is_byte in Hv. lia.
Qed.

Lemma build_inverse_last_wins_witness :
  exists inv,
    build_inverse [5; 7; 5] = (inv, None) /\
    inv !! 5%nat = Some 2 /\ inv !! 7%nat = Some 1 /\ inv !! 9%nat = Some 0.
Proof.
  assert (Hb : Forall is_byte [5; 7; 5])
    by (each_entry; unfold is_byte; lia).
  destruct (build_inverse_last_wins [5; 7; 5] Hb)
    as (inv & Hrun & Hinv & _ & _ & _).
  exists inv. split; [exact Hrun|].
  rewrite Hinv. vm_compute. repeat split; reflexivity.
Defined.

(** ** Bits of a byte *)

Lemma byte_high_bits (x : Z) :
  is_byte x -> forall n, 8 <= n -> Z.testbit x n = false.
Proof.
  intros Hx n Hn. unfold is_byte in Hx.
  rewrite <- (Z.mod_small x (2 ^ 8)) by (change (2 ^ 8) with 256; lia).
  apply Z.mod_pow2_bits_high. lia.
Qed.

Lemma high_bits_byte (x : Z) :
  (forall n, 8 <= n -> Z.testbit x n = false) -> is_byte x.
Proof.
  intros Hhigh. replace x with (Z.land x 0xFF); [apply land_255_byte|].
  apply Z.bits_inj'. intros n Hn. rewrite Z.land_spec.
  change 0xFF with (Z.ones 8).
  destruct (Z.lt_ge_cases n 8) as [Hlt|Hge].
  - rewrite Z.ones_spec_low by lia. apply andb_true_r.
  - rewrite (Hhigh n Hge). reflexivity.
Qed.

Lemma lxor_byte (a b : Z) : is_byte a -> is_byte b -> is_byte (Z.lxor a b).
Proof.
  intros Ha Hb. apply high_bits_byte. intros n Hn.
  rewrite Z.lxor_spec, (byte_high_bits a Ha n Hn), (byte_high_bits b Hb n Hn).
  reflexivity.
Qed.

(** Setting one of the bits 0..7 of a byte leaves a byte. *)
Lemma lor_bit_byte (r i : Z) :
  is_byte r -> 0 <= i < 8 -> is_byte (Z.lor r (Z.shiftl 1 i)).
Proof.
  intros Hr Hi. apply high_bits_byte. intros n Hn.
  rewrite Z.lor_spec, (byte_high_bits r Hr n Hn), Z.shiftl_spec by lia.
  change 1 with (Z.ones 1). rewrite Z.ones_spec_high by lia. reflexivity.
Qed.

(** The test [(x >> j) & 1] reads bit [j] of [x]. *)
Lemma truthy_low_bit (x j : Z) :
  0 <= j -> truthy (Z.land (Z.shiftr x j) 1) = Z.testbit x j.
Proof.
  intros Hj. unfold truthy. change 1 with (Z.ones 1) at 1.
  rewrite Z.land_ones by lia. change (2 ^ 1) with 2.
  rewrite <- Z.bit0_mod, Z.shiftr_spec by lia. rewrite Z.add_0_l.
  destruct (Z.testbit x j); reflexivity.
Qed.

(** Two integers with the same low eight bits agree on bits 0..7. *)
Lemma low8_testbit (x y j : Z) :
  Z.land x 0xFF = Z.land y 0xFF -> 0 <= j < 8 -> Z.testbit x j = Z.testbit y j.
Proof.
  intros Hxy Hj.
  assert (H : Z.testbit (Z.land x 0xFF) j = Z.testbit (Z.land y 0xFF) j)
    by (rewrite Hxy; reflexivity).
  rewrite !Z.land_spec in H. change 0xFF with (Z.ones 8) in H.
  rewrite Z.ones_spec_low, !andb_true_r in H by lia. exact H.
Qed.

(** ** UTF-8 output *)

Lemma testbit_small (c k m : Z) :
  0 <= c < 2 ^ k -> 0 <= k <= m -> Z.testbit c m = false.
Proof.
  intros Hc Hk. rewrite <- (Z.mod_small c (2 ^ k)) by exact Hc.
  apply Z.mod_pow2_bits_high. lia.
Qed.

(** A lead byte: a byte-sized marker over the bits of [c] from [s]
    upwards, where [c] has at most [s + 8] bits. *)
Lemma lead_byte (marker c s : Z) :
  is_byte marker -> 0 <= s -> 0 <= c < 2 ^ (s + 8) ->
  is_byte (Z.lor marker (Z.shiftr c s)).
Proof.
  intros Hm Hs Hc. apply high_bits_byte. intros n Hn.
  rewrite Z.lor_spec, (byte_high_bits marker Hm n Hn), Z.shiftr_spec by lia.
  rewrite (testbit_small c (s + 8) (n + s)) by lia. reflexivity.
Qed.

(** A continuation byte: [0x80] over six bits. *)
Lemma tail_byte (x : Z) : is_byte (Z.lor 0x80 (Z.land x 0x3F)).
Proof.
  apply high_bits_byte. intros n Hn.
  rewrite Z.lor_spec, Z.land_spec.
  rewrite (byte_high_bits 0x80) by (unfold is_byte; lia).
  rewrite (byte_high_bits 0x3F) by (unfold is_byte; lia).
  apply andb_false_r.
Qed.

Lemma utf8_encode_char_bytes (c : Z) (bs : list Z) :
  0 <= c <= 0x10FFFF -> utf8_encode_char c = Ok bs -> Forall is_byte bs.
Proof.
  intros Hc. unfold utf8_encode_char.
  destruct (c <? 0x80) eqn:H1.
  { intros [= <-]. each_entry. unfold is_byte. lia. }
  destruct (c <? 0x800) eqn:H2.
  { intros [= <-]. each_entry; [|apply tail_byte].
    apply lead_byte; [unfold is_byte; lia | lia |].
    change (2 ^ (6 + 8)) with 16384. lia. }
  destruct (between 0xD800 0xDFFF c); [discriminate|].
  destruct (c <? 0x10000) eqn:H3.
  { intros [= <-]. each_entry; try apply tail_byte.
    apply lead_byte; [unfold is_byte; lia | lia |].
    change (2 ^ (12 + 8)) with 1048576. lia. }
  intros [= <-]. each_entry; try apply tail_byte.
  apply lead_byte; [unfold is_byte; lia | lia |].
  change (2 ^ (18 + 8)) with 67108864. lia.
Qed.

(** Encoding text made of code points yields bytes. *)
Lemma utf8_encode_bytes (text : str) (bs : list Z) :
  Forall (fun c => 0 <= c <= 0x10FFFF) text ->
  utf8_encode text = Ok bs -> Forall is_byte bs.
Proof.
  intros Htext. revert bs.
  induction Htext as [|c rest Hc _ IH]; cbn [utf8_encode]; intros bs H.
  - injection H as <-. constructor.
  - destruct (utf8_encode_char c) as [b1|e] eqn:Hb1; [|discriminate].
    destruct (utf8_encode rest) as [b2|e] eqn:Hb2; [|discriminate].
    injection H as <-. apply Forall_app. split.
    + exact (utf8_encode_char_bytes c b1 Hc Hb1).
    + apply IH. reflexivity.
Qed.

(** C9. Substitution through a 256-entry table returns, for any
    sequence of bytes, a sequence of the same length whose entry at
    each position is the table entry of the input byte at that
    position; [encrypt_test] renders exactly that sequence when the
    bytes are the encoding of its text. *)
Theorem substitute_preserves_length_and_order (table data : list Z) :
  length table = 256%nat -> Forall is_byte data ->
  exists out,
    substitute table data = Ok out /\
    length out = length data /\
    (forall (i : nat) (b : Z), data !! i = Some b -> out !! i = table !! Z.to_nat b) /\
    (forall (st : tables) (text : str),
        CURRENT_SBOX st = table -> utf8_encode text = Ok data ->
        encrypt_test st text
        = (Return (str_join (lit " ") (map format_02X out)), st)).
Proof.
  intros Hlen Hdata.
  destruct (substitute_total table data Hlen Hdata) as (out & Hout & Hall).
  exists out. split; [exact Hout|].
  split; [symmetry; eapply Forall2_length, Hall|]. split.
  - intros i b Hb.
    destruct (Forall2_lookup_l _ _ _ _ _ Hall Hb) as (v & Hv & Htab).
    rewrite Hv, Htab. reflexivity.
  - intros st text Hst Henc. unfold encrypt_test, ensure_tables.
    rewrite Hst. destruct table as [|t0 table']; [discriminate|].
    rewrite Henc. cbn [mbind res_bind]. rewrite Hst, Hout. reflexivity.
Qed.

Lemma substitute_preserves_length_and_order_witness :
  exists out,
    substitute (CURRENT_SBOX default_tables) [0x48; 0x45; 0x4C] = Ok out /\
    length out = 3%nat /\
    encrypt_test default_tables (lit "HEL")
    = (Return (str_join (lit " ") (map format_02X out)), default_tables).
Proof.
  assert (Hb : Forall is_byte [0x48; 0x45; 0x4C])
    by (each_entry; unfold is_byte; lia).
  destruct (substitute_preserves_length_and_order
              (CURRENT_SBOX default_tables) [0x48; 0x45; 0x4C] eq_refl Hb)
    as (out & Hout & Hlen & _ & Henc).
  exists out. split; [exact Hout|]. split; [exact Hlen|].
  apply Henc; reflexivity.
Defined.

(** ** Affine transform *)

Section Affine.

Variables (byte_val : Z) (matrix : list Z).
Hypothesis matrix_rows : length matrix = 8%nat.

Lemma affine_bit_loop_parity (i row : Z) (js : list Z) :
  getitem matrix i = Ok row ->
  forall bit, bit = 0 \/ bit = 1 ->
  exists bit', affine_bit_loop byte_val matrix i js bit = Ok bit' /\
               (bit' = 0 \/ bit' = 1).
Proof.
  intros Hrow. induction js as [|j js IH]; intros bit Hbit.
  - exists bit. split; [reflexivity | exact Hbit].
  - cbn [affine_bit_loop]. rewrite Hrow. cbn [mbind res_bind]. apply IH.
    destruct (truthy (Z.land (Z.shiftr row j) 1)); [|exact Hbit].
    destruct (truthy (Z.land (Z.shiftr byte_val j) 1)); [|exact Hbit].
    destruct Hbit as [-> | ->]; [right | left]; reflexivity.
Qed.

Lemma range_8_bounds : Forall (fun i => 0 <= i < 8) (range 8).
Proof. apply Forall_forall. intros i Hi. apply range_elem in Hi. lia. Qed.

Lemma affine_loop_byte (rows : list Z) :
  Forall (fun i => 0 <= i < 8) rows ->
  forall result, is_byte result ->
  exists r, affine_loop byte_val matrix rows result = Ok r /\ is_byte r.
Proof.
  induction 1 as [|i rows Hi _ IH]; intros result Hres.
  - exists result. split; [reflexivity | exact Hres].
  - cbn [affine_loop].
    destruct (getitem_nonneg matrix i) as (row & _ & Hrow); [lia|].
    destruct (affine_bit_loop_parity i row (range 8) Hrow 0) as (bit & -> & Hbit);
      [left; reflexivity|].
    cbn [mbind res_bind]. apply IH.
    destruct (truthy bit); [apply lor_bit_byte; assumption | exact Hres].
Qed.

(** With eight rows and a byte constant, [apply_affine] returns a
    byte, whatever the integers in the rows and in [byte_val]. *)
Lemma apply_affine_returns_byte (constant : Z) :
  is_byte constant ->
  exists v, apply_affine byte_val matrix constant = Ok v /\ is_byte v.
Proof.
  intros Hc. unfold apply_affine.
  destruct (affine_loop_byte (range 8) range_8_bounds 0) as (r & -> & Hr);
    [unfold is_byte; lia|].
  cbn [mbind res_bind mret res_ret]. eexists. split; [reflexivity|].
  apply lxor_byte; assumption.
Qed.

(** Only the low eight bits of the rows and of [byte_val] matter. *)
Variables (byte_val' : Z) (matrix' : list Z).
Hypothesis same_input_bits : Z.land byte_val' 0xFF = Z.land byte_val 0xFF.
Hypothesis same_row_bits :
  Forall2 (fun r r' => Z.land r' 0xFF = Z.land r 0xFF) matrix matrix'.

Lemma affine_bit_loop_low8 (i row row' : Z) (js : list Z) :
  getitem matrix i = Ok row -> getitem matrix' i = Ok row' ->
  Z.land row' 0xFF = Z.land row 0xFF ->
  Forall (fun j => 0 <= j < 8) js ->
  forall bit,
    affine_bit_loop byte_val' matrix' i js bit
    = affine_bit_loop byte_val matrix i js bit.
Proof.
  intros Hrow Hrow' Hbits. induction 1 as [|j js Hj _ IH]; intros bit.
  - reflexivity.
  - cbn [affine_bit_loop]. rewrite Hrow, Hrow'. cbn [mbind res_bind].
    rewrite !truthy_low_bit by lia.
    rewrite (low8_testbit row' row j Hbits Hj).
    rewrite (low8_testbit byte_val' byte_val j same_input_bits Hj).
    apply IH.
Qed.

Lemma affine_loop_low8 (rows : list Z) :
  Forall (fun i => 0 <= i < 8) rows ->
  forall result,
    affine_loop byte_val' matrix' rows result
    = affine_loop byte_val matrix rows result.
Proof.
  induction 1 as [|i rows Hi _ IH]; intros result.
  - reflexivity.
  - cbn [affine_loop].
    pose proof (Forall2_length _ _ _ same_row_bits) as Hlen.
    destruct (getitem_nonneg matrix i) as (row & Hl & Hrow); [lia|].
    destruct (getitem_nonneg matrix' i) as (row' & Hl' & Hrow'); [lia|].
    pose proof (Forall2_lookup_lr _ _ _ _ _ _ same_row_bits Hl Hl') as Hbits.
    rewrite (affine_bit_loop_low8 i row row' (range 8) Hrow Hrow' Hbits
               range_8_bounds 0).
    destruct (affine_bit_loop byte_val matrix i (range 8) 0) as [bit|e];
      [|reflexivity].
    cbn [mbind res_bind]. apply IH.
Qed.

Lemma apply_affine_low8 (constant : Z) :
  apply_affine byte_val' matrix' constant = apply_affine byte_val matrix constant.
Proof.
  unfold apply_affine. rewrite (affine_loop_low8 (range 8) range_8_bounds 0).
  reflexivity.
Qed.

End Affine.

(** ** Table builder *)

Lemma sbox_loop_appends (matrix : list Z) (constant : Z) :
  length matrix = 8%nat -> is_byte constant ->
  forall xs sbox,
  exists vals,
    sbox_loop matrix constant xs sbox = Ok (sbox ++ vals) /\
    Forall2 (fun x v => apply_affine (gf_inverse x) matrix constant = Ok v) xs vals /\
    Forall is_byte vals.
Proof.
  intros Hlen Hc. induction xs as [|x xs IH]; intros sbox.
  - exists []. rewrite app_nil_r. repeat split; constructor.
  - cbn [sbox_loop]. cbv zeta.
    destruct (apply_affine_returns_byte (gf_inverse x) matrix Hlen constant Hc)
      as (v & Hv & Hbyte).
    rewrite Hv. cbn [mbind res_bind].
    destruct (IH (sbox ++ [v])) as (vals & Hloop & Hall & Hbytes).
    exists (v :: vals). rewrite Hloop, <- app_assoc. split; [reflexivity|].
    split; constructor; assumption.
Qed.

Lemma generate_sbox_logic_returns (matrix : list Z) (constant : Z) :
  length matrix = 8%nat -> is_byte constant ->
  exists sbox,
    generate_sbox_logic matrix constant = Ok sbox /\
    Forall2 (fun x v => apply_affine (gf_inverse x) matrix constant = Ok v)
      (range 256) sbox /\
    Forall is_byte sbox.
Proof.
  intros Hlen Hc. unfold generate_sbox_logic.
  destruct (sbox_loop_appends matrix constant Hlen Hc (range 256) [])
    as (vals & Hloop & Hall & Hbytes).
  exists vals. split; [exact Hloop|]. split; assumption.
Qed.

(** The handler returns the rendered table and the fixed report, and
    stores the table with its inverse. *)
Lemma run_analysis_returns (st : tables) (matrix : list Z) (constant : Z) :
  length matrix = 8%nat -> is_byte constant ->
  exists sbox inv,
    generate_sbox_logic matrix constant = Ok sbox /\
    build_inverse sbox = (inv, None) /\
    run_analysis st matrix constant
      = (Return (Analysis (map format_02X sbox) metrics), Tables sbox inv).
Proof.
  intros Hlen Hc.
  destruct (generate_sbox_logic_returns matrix constant Hlen Hc)
    as (sbox & Hgen & _ & Hbytes).
  pose proof (build_inverse_writes sbox Hbytes) as Hinv.
  eexists sbox, _. split; [exact Hgen|]. split; [exact Hinv|].
  unfold run_analysis. rewrite Hgen, Hinv. reflexivity.
Qed.

(** ** Rendering *)

Lemma format_02X_bytes :
  Forall (fun v => format_02X v = [hex_digit (v / 16); hex_digit (v mod 16)])
    (range 256).
Proof. apply (bool_decide_unpack _). vm_compute. reflexivity. Qed.

Lemma format_02X_hex_tokens :
  forallb (fun v => is_hex_token (format_02X v)) (range 256) = true.
Proof. vm_compute. reflexivity. Qed.

(** C5. For every matrix of eight rows and every byte constant,
    [generate_sbox_logic] returns exactly 256 entries, the entry at
    index [x] being [apply_affine (gf_inverse x) matrix constant] for
    ascending [x]; and [run_analysis] renders that table as 256 tokens
    of two upper-case hexadecimal characters, the token at index [x]
    spelling the entry at index [x]. *)
Theorem generate_sbox_logic_entries (st : tables) (matrix : list Z) (constant : Z) :
  length matrix = 8%nat -> is_byte constant ->
  exists sbox,
    generate_sbox_logic matrix constant = Ok sbox /\
    length sbox = 256%nat /\
    (forall x, is_byte x ->
       exists v, apply_affine (gf_inverse x) matrix constant = Ok v /\
                 sbox !! Z.to_nat x = Some v) /\
    exists body st',
      run_analysis st matrix constant = (Return body, st') /\
      CURRENT_SBOX st' = sbox /\
      length (sbox_hex body) = 256%nat /\
      Forall (fun tok => is_hex_token tok = true) (sbox_hex body) /\
      (forall (x : nat) (v : Z), sbox !! x = Some v ->
         sbox_hex body !! x = Some [hex_digit (v / 16); hex_digit (v mod 16)]).
Proof.
  intros Hlen Hc.
  destruct (generate_sbox_logic_returns matrix constant Hlen Hc)
    as (sbox & Hgen & Hall & Hbytes).
  assert (Hsize : length sbox = 256%nat).
  { rewrite <- (Forall2_length _ _ _ Hall). apply range_length. }
  exists sbox. split; [exact Hgen|]. split; [exact Hsize|]. split.
  { intros x Hx.
    destruct (Forall2_lookup_l _ _ _ (Z.to_nat x) x Hall) as (v & Hv & Haff).
    - apply range_lookup. unfold is_byte in Hx. lia.
    - exists v. split; [exact Haff | exact Hv]. }
  destruct (run_analysis_returns st matrix constant Hlen Hc)
    as (sbox' & inv & Hgen' & _ & Hrun).
  rewrite Hgen in Hgen'. injection Hgen' as <-.
  eexists _, _. split; [exact Hrun|]. cbn [CURRENT_SBOX sbox_hex].
  split; [reflexivity|]. split; [rewrite length_map; exact Hsize|]. split.
  - apply Forall_forall. intros tok Htok.
    apply list_elem_of_fmap in Htok as (v & -> & Hv).
    rewrite Forall_forall in Hbytes.
    exact (all_bytes_bool _ format_02X_hex_tokens v (Hbytes v Hv)).
  - intros x v Hv. change (map format_02X sbox) with (format_02X <$> sbox).
    rewrite list_lookup_fmap, Hv. cbn [fmap option_fmap option_map]. f_equal.
    apply (all_bytes _ format_02X_bytes).
    rewrite Forall_forall in Hbytes. apply Hbytes.
    eapply list_elem_of_lookup_2, Hv.
Qed.

Lemma generate_sbox_logic_entries_witness :
  exists sbox,
    generate_sbox_logic K44_MATRIX K44_CONST = Ok sbox /\
    length sbox = 256%nat /\
    exists body st',
      run_analysis initial_tables K44_MATRIX K44_CONST = (Return body, st') /\
      length (sbox_hex body) = 256%nat.
Proof.
  assert (Hc : is_byte K44_CONST) by (unfold is_byte, K44_CONST; lia).
  destruct (generate_sbox_logic_entries initial_tables K44_MATRIX K44_CONST
              eq_refl Hc)
    as (sbox & Hgen & Hlen & _ & body & st' & Hrun & _ & Hhex & _).
  exists sbox. split; [exact Hgen|]. split; [exact Hlen|].
  exists body, st'. split; [exact Hrun | exact Hhex].
Defined.

(** C10. For a matrix of eight non-negative rows, a byte constant and
    a byte [byte_val], [apply_affine] returns a byte, and the result
    is the same for any rows and any [byte_val] with the same low
    eight bits; hence every entry of [generate_sbox_logic] is a byte,
    and no write [CURRENT_INV_SBOX[val] = i] of the inverse-table loop
    is out of bounds. *)
Theorem apply_affine_stays_in_byte_range
    (byte_val : Z) (matrix : list Z) (constant : Z) :
  length matrix = 8%nat -> Forall (fun row => 0 <= row) matrix ->
  is_byte constant -> is_byte byte_val ->
  (exists v, apply_affine byte_val matrix constant = Ok v /\ is_byte v) /\
  (forall byte_val' matrix',
      Z.land byte_val' 0xFF = Z.land byte_val 0xFF ->
      Forall2 (fun r r' => Z.land r' 0xFF = Z.land r 0xFF) matrix matrix' ->
      apply_affine byte_val' matrix' constant
      = apply_affine byte_val matrix constant) /\
  exists sbox inv,
    generate_sbox_logic matrix constant = Ok sbox /\
    Forall is_byte sbox /\
    (forall (i : nat) (val : Z),
        sbox !! i = Some val -> 0 <= val < Z.of_nat (length (replicate 256 0))) /\
    build_inverse sbox = (inv, None).
Proof.
  intros Hlen _ Hc _. split; [|split].
  - apply apply_affine_returns_byte; assumption.
  - intros byte_val' matrix' Hbv Hrows.
    apply apply_affine_low8; assumption.
  - destruct (generate_sbox_logic_returns matrix constant Hlen Hc)
      as (sbox & Hgen & _ & Hbytes).
    eexists sbox, _. split; [exact Hgen|]. split; [exact Hbytes|]. split.
    + intros i val Hval. rewrite length_replicate.
      rewrite Forall_forall in Hbytes.
      assert (Hb : is_byte val) by (eapply Hbytes, list_elem_of_lookup_2, Hval).
      unfold is_byte in Hb. lia.
    + apply build_inverse_writes, Hbytes.
Qed.

Lemma apply_affine_stays_in_byte_range_witness :
  (exists v, apply_affine 0x53 [0x157; 0xAB; 0xD5; 0xEA; 0x75; 0xBA; 0x5D; 0xAE] 0x63
             = Ok v /\ is_byte v) /\
  apply_affine 0x153 K44_MATRIX 0x63
  = apply_affine 0x53 [0x157; 0xAB; 0xD5; 0xEA; 0x75; 0xBA; 0x5D; 0xAE] 0x63.
Proof.
  assert (Hrows : Forall (fun row => 0 <= row)
                    [0x157; 0xAB; 0xD5; 0xEA; 0x75; 0xBA; 0x5D; 0xAE])
    by (each_entry; lia).
  assert (Hc : is_byte 0x63) by (unfold is_byte; lia).
  assert (Hb : is_byte 0x53) by (unfold is_byte; lia).
  destruct (apply_affine_stays_in_byte_range 0x53
              [0x157; 0xAB; 0xD5; 0xEA; 0x75; 0xBA; 0x5D; 0xAE] 0x63
              eq_refl Hrows Hc Hb) as (Hv & Hlow & _).
  split; [exact Hv|].
  apply Hlow; [reflexivity|].
  unfold K44_MATRIX. repeat constructor.
Defined.

(** C8. The metrics that [run_analysis] returns are a fixed constant:
    any two well-formed inputs get the same metrics, the literal
    [metrics], whatever tables they generate. *)
Theorem metrics_independent_of_input
    (st1 st2 : tables) (matrix1 matrix2 : list Z) (constant1 constant2 : Z) :
  well_formed matrix1 constant1 -> well_formed matrix2 constant2 ->
  exists body1 st1' body2 st2',
    run_analysis st1 matrix1 constant1 = (Return body1, st1') /\
    run_analysis st2 matrix2 constant2 = (Return body2, st2') /\
    analysis_metrics body1 = analysis_metrics body2 /\
    analysis_metrics body1 = metrics.
Proof.
  intros (Hlen1 & _ & Hc1) (Hlen2 & _ & Hc2).
  destruct (run_analysis_returns st1 matrix1 constant1 Hlen1 Hc1)
    as (sbox1 & inv1 & _ & _ & Hrun1).
  destruct (run_analysis_returns st2 matrix2 constant2 Hlen2 Hc2)
    as (sbox2 & inv2 & _ & _ & Hrun2).
  eexists _, _, _, _. split; [exact Hrun1|]. split; [exact Hrun2|].
  split; reflexivity.
Qed.

Lemma metrics_independent_of_input_witness :
  exists body1 st1' body2 st2',
    run_analysis initial_tables K44_MATRIX K44_CONST = (Return body1, st1') /\
    run_analysis default_tables [0xF1; 0xE3; 0xC7; 0x8F; 0x1F; 0x3E; 0x7C; 0xF8] 0x63
      = (Return body2, st2') /\
    analysis_metrics body1 = analysis_metrics body2 /\
    analysis_metrics body1 = metrics.
Proof.
  apply metrics_independent_of_input.
  - unfold well_formed, K44_MATRIX, K44_CONST.
    split; [reflexivity|]. split; [|unfold is_byte; lia].
    each_entry; unfold is_byte; lia.
  - unfold well_formed.
    split; [reflexivity|]. split; [|unfold is_byte; lia].
    each_entry; unfold is_byte; lia.
Defined.

(** ** Decoding malformed input *)

Lemma ensure_tables_ready (table : tables -> list Z) (st : tables) :
  exists st', ensure_tables table st = (st', None).
Proof.
  unfold ensure_tables. destruct (table st).
  - exists default_tables. apply startup_event_default.
  - exists st. reflexivity.
Qed.

Lemma int16_all_rejects (unicode_decimal : Z -> option Z) (hex_vals : list str) (tok : str) :
  tok ∈ hex_vals -> int16 unicode_decimal tok = None ->
  int16_all unicode_decimal hex_vals = Raise ValueError.
Proof.
  intros Hin Hbad. induction Hin as [tok rest | tok h rest Hin IH]; cbn [int16_all].
  - rewrite Hbad. reflexivity.
  - destruct (int16 unicode_decimal h); [|reflexivity].
    rewrite (IH Hbad). reflexivity.
Qed.

Lemma decrypt_test_rejects (unicode_decimal : Z -> option Z) (st : tables)
    (ciphertext tok : str) :
  tok ∈ str_split (str_strip ciphertext) ->
  int16 unicode_decimal tok = None ->
  fst (decrypt_test unicode_decimal st ciphertext)
  = HTTPException 400 (Text "Invalid Hex Data").
Proof.
  intros Hin Hbad. unfold decrypt_test.
  destruct (ensure_tables_ready CURRENT_INV_SBOX st) as [st' ->].
  rewrite (int16_all_rejects unicode_decimal _ tok Hin Hbad). reflexivity.
Qed.

(** C7.  For every input of [decrypt_test] with a
    whitespace-separated token that [int(h, 16)] rejects, the handler
    raises [HTTPException] with status 400 and detail "Invalid Hex
    Data"; the inputs "ZZ" and "41 G2" are of that kind. *)
Theorem decrypt_test_unparsable_token
    (unicode_decimal : Z -> option Z) (st : tables) (ciphertext tok : str) :
  tok ∈ str_split (str_strip ciphertext) ->
  int16 unicode_decimal tok = None ->
  fst (decrypt_test unicode_decimal st ciphertext)
    = HTTPException 400 (Text "Invalid Hex Data") /\
  fst (decrypt_test unicode_decimal st (lit "ZZ"))
    = HTTPException 400 (Text "Invalid Hex Data") /\
  fst (decrypt_test unicode_decimal st (lit "41 G2"))
    = HTTPException 400 (Text "Invalid Hex Data").
Proof.
  intros Hin Hbad.
  split; [exact (decrypt_test_rejects unicode_decimal st ciphertext tok Hin Hbad)|].
  split.
  - apply (decrypt_test_rejects unicode_decimal st _ (lit "ZZ")); [|reflexivity].
    replace (str_split (str_strip (lit "ZZ"))) with [lit "ZZ"]
      by (vm_compute; reflexivity).
    apply list_elem_of_here.
  - apply (decrypt_test_rejects unicode_decimal st _ (lit "G2")); [|reflexivity].
    replace (str_split (str_strip (lit "41 G2"))) with [lit "41"; lit "G2"]
      by (vm_compute; reflexivity).
    apply list_elem_of_further, list_elem_of_here.
Qed.

Lemma decrypt_test_unparsable_token_witness :
  fst (decrypt_test no_foreign_digits initial_tables (lit "48 4x 4C"))
    = HTTPException 400 (Text "Invalid Hex Data").
Proof.
  refine (proj1 (decrypt_test_unparsable_token no_foreign_digits initial_tables
                   (lit "48 4x 4C") (lit "4x") _ _)).
  - replace (str_split (str_strip (lit "48 4x 4C")))
      with [lit "48"; lit "4x"; lit "4C"] by (vm_compute; reflexivity).
    apply list_elem_of_further, list_elem_of_here.
  - vm_compute. reflexivity.
Defined.

(** C7, a token outside 0..255: "100" is a base-16 literal but not a
    byte value; reading the inverse table at 256 raises [IndexError],
    which the handler turns into status 500, "Decryption Failed",
    not 400. *)
Lemma decrypt_test_out_of_range_token :
  lit "100" ∈ str_split (str_strip (lit "100")) /\
  int16 no_foreign_digits (lit "100") = Some 256 /\
  ~ is_byte 256 /\
  fst (decrypt_test no_foreign_digits default_tables (lit "100"))
    = HTTPException 500 (Text "Decryption Failed").
Proof.
  split.
  { replace (str_split (str_strip (lit "100"))) with [lit "100"]
      by (vm_compute; reflexivity).
    apply list_elem_of_here. }
  split; [vm_compute; reflexivity|].
  split; [unfold is_byte; lia|].
  vm_compute. reflexivity.
Qed.

(** * Further properties of the handlers *)

(** ** Malformed matrices and constants *)

Lemma range_8_eq : range 8 = [0; 1; 2; 3; 4; 5; 6; 7].
Proof. reflexivity. Qed.

Lemma range_256_head : exists rest, range 256 = 0 :: rest.
Proof. eexists. vm_compute. reflexivity. Qed.

Lemma getitem_beyond {A : Type} (l : list A) (i : Z) :
  Z.of_nat (length l) <= i -> getitem l i = Raise IndexError.
Proof.
  intros Hi. unfold getitem, norm_index.
  destruct (i <? Z.of_nat (length l)) eqn:H1; [lia|].
  destruct (i <? 0) eqn:H2; [lia|].
  rewrite !andb_false_r. reflexivity.
Qed.

(** A row index past the end of the matrix stops the outer loop. *)
Lemma affine_loop_missing_row (byte_val : Z) (matrix : list Z) (rows : list Z) :
  Forall (fun i => 0 <= i) rows ->
  (exists i, i ∈ rows /\ Z.of_nat (length matrix) <= i) ->
  forall result, affine_loop byte_val matrix rows result = Raise IndexError.
Proof.
  induction 1 as [|i rows Hi _ IH]; intros [k [Hk Hlen]] result.
  - inversion Hk.
  - cbn [affine_loop]. rewrite range_8_eq.
    destruct (Z.lt_ge_cases i (Z.of_nat (length matrix))) as [Hin|Hout].
    + destruct (getitem_nonneg matrix i) as (row & _ & Hrow); [lia|].
      destruct (affine_bit_loop_parity byte_val matrix i row
                  [0; 1; 2; 3; 4; 5; 6; 7] Hrow 0) as (bit & -> & _);
        [left; reflexivity|].
      cbn [mbind res_bind]. apply IH.
      apply elem_of_cons in Hk as [->|Hk]; [lia|].
      exists k. split; assumption.
    + cbn [affine_bit_loop]. rewrite (getitem_beyond matrix i Hout). reflexivity.
Qed.

Lemma apply_affine_short_matrix_raises (byte_val : Z) (matrix : list Z) (constant : Z) :
  (length matrix < 8)%nat -> apply_affine byte_val matrix constant = Raise IndexError.
Proof.
  intros Hlen. unfold apply_affine.
  rewrite affine_loop_missing_row; [reflexivity | |].
  - apply Forall_forall. intros i Hi. apply range_elem in Hi. lia.
  - exists 7. split; [apply range_elem; lia | lia].
Qed.

(** X1. A matrix with fewer than eight rows makes [run_analysis] fail
    with [IndexError], which no handler catches, and the tables stay
    as they were. *)
Theorem run_analysis_short_matrix (st : tables) (matrix : list Z) (constant : Z) :
  (length matrix < 8)%nat ->
  generate_sbox_logic matrix constant = Raise IndexError /\
  run_analysis st matrix constant = (Escapes IndexError, st).
Proof.
  intros Hlen.
  assert (Hgen : generate_sbox_logic matrix constant = Raise IndexError).
  { unfold generate_sbox_logic. destruct range_256_head as [rest ->].
    cbn [sbox_loop]. cbv zeta.
    rewrite apply_affine_short_matrix_raises by exact Hlen. reflexivity. }
  split; [exact Hgen|]. unfold run_analysis. rewrite Hgen. reflexivity.
Qed.

Lemma run_analysis_short_matrix_witness :
  run_analysis default_tables [0x57; 0xAB; 0xD5] 0x63
  = (Escapes IndexError, default_tables).
Proof.
  apply (run_analysis_short_matrix default_tables [0x57; 0xAB; 0xD5] 0x63).
  simpl. lia.
Defined.

(** With eight rows [apply_affine] returns a byte XORed with the
    constant, whatever the constant. *)
Lemma apply_affine_value (byte_val : Z) (matrix : list Z) (constant : Z) :
  length matrix = 8%nat ->
  exists r, is_byte r /\ apply_affine byte_val matrix constant = Ok (Z.lxor r constant).
Proof.
  intros Hlen. unfold apply_affine.
  destruct (affine_loop_byte byte_val matrix Hlen (range 8)
              (range_8_bounds matrix Hlen) 0) as (r & -> & Hr);
    [unfold is_byte; lia|].
  exists r. split; [exact Hr | reflexivity].
Qed.

Lemma sbox_loop_length (matrix : list Z) (constant : Z) (xs : list Z) :
  forall sbox out,
    sbox_loop matrix constant xs sbox = Ok out ->
    length out = (length sbox + length xs)%nat.
Proof.
  induction xs as [|x xs IH]; intros sbox out H; cbn [sbox_loop] in H.
  - injection H as <-. cbn [length]. lia.
  - cbv zeta in H.
    destruct (apply_affine (gf_inverse x) matrix constant) as [v|e]; [|discriminate].
    cbn [mbind res_bind] in H. apply IH in H. rewrite H, length_app. cbn [length]. lia.
Qed.

Lemma generate_sbox_logic_length (matrix : list Z) (constant : Z) (sbox : list Z) :
  generate_sbox_logic matrix constant = Ok sbox -> length sbox = 256%nat.
Proof.
  intros H. apply sbox_loop_length in H. rewrite H, range_length. reflexivity.
Qed.

Lemma setitem_length {A : Type} (l l' : list A) (i : Z) (v : A) :
  setitem l i v = Ok l' -> length l' = length l.
Proof.
  unfold setitem. destruct (norm_index l i); [|discriminate].
  intros [= <-]. apply length_insert.
Qed.

(** The loop keeps the length of the inverse table, also when a write
    fails. *)
Lemma fill_inverse_length (vals : list Z) :
  forall i inv, length (fst (fill_inverse i vals inv)) = length inv.
Proof.
  induction vals as [|val rest IH]; intros i inv; cbn [fill_inverse].
  - reflexivity.
  - destruct (setitem inv val i) as [inv'|e] eqn:Hset; [|reflexivity].
    rewrite IH. eapply setitem_length, Hset.
Qed.

Lemma build_inverse_length (sbox : list Z) :
  length (fst (build_inverse sbox)) = 256%nat.
Proof. unfold build_inverse. rewrite fill_inverse_length. apply length_replicate. Qed.

(** ** The shape of the tables *)

Lemma default_tables_shape : tables_shape default_tables.
Proof. right. split; reflexivity. Qed.

Lemma ensure_tables_cases (table : tables -> list Z) (st : tables) :
  (table st = [] /\ ensure_tables table st = (default_tables, None)) \/
  (table st <> [] /\ ensure_tables table st = (st, None)).
Proof.
  unfold ensure_tables. destruct (table st).
  - left. split; [reflexivity | apply startup_event_default].
  - right. split; [discriminate | reflexivity].
Qed.

Lemma encrypt_test_state (st : tables) (text : str) :
  snd (encrypt_test st text) = fst (ensure_tables CURRENT_SBOX st).
Proof.
  unfold encrypt_test.
  destruct (ensure_tables CURRENT_SBOX st) as [st' [e|]]; [reflexivity|].
  cbv zeta. destruct (_ ≫= _); reflexivity.
Qed.

Lemma decrypt_test_state (unicode_decimal : Z -> option Z) (st : tables) (ciphertext : str) :
  snd (decrypt_test unicode_decimal st ciphertext)
  = fst (ensure_tables CURRENT_INV_SBOX st).
Proof.
  unfold decrypt_test.
  destruct (ensure_tables CURRENT_INV_SBOX st) as [st' [e|]]; [reflexivity|].
  cbv zeta. destruct (_ ≫= _) as [s|e]; [reflexivity|].
  destruct (is_ValueError e); reflexivity.
Qed.

Lemma ensure_tables_shape (table : tables -> list Z) (st : tables) :
  tables_shape st -> tables_shape (fst (ensure_tables table st)).
Proof.
  intros Hst. destruct (ensure_tables_cases table st) as [[_ ->] | [_ ->]].
  - apply default_tables_shape.
  - exact Hst.
Qed.

Lemma run_analysis_shape (st : tables) (matrix : list Z) (constant : Z) :
  tables_shape st -> tables_shape (snd (run_analysis st matrix constant)).
Proof.
  intros Hst. unfold run_analysis.
  destruct (generate_sbox_logic matrix constant) as [sbox|e] eqn:Hgen; [|exact Hst].
  pose proof (build_inverse_length sbox) as Hinv.
  destruct (build_inverse sbox) as [inv err]. cbn [fst] in Hinv.
  assert (Hshape : tables_shape (Tables sbox inv)).
  { right. split; [eapply generate_sbox_logic_length, Hgen | exact Hinv]. }
  destruct err; exact Hshape.
Qed.

Lemma after_shape (unicode_decimal : Z -> option Z) (st : tables) (ev : event) :
  tables_shape st -> tables_shape (after unicode_decimal st ev).
Proof.
  intros Hst. destruct ev as [|matrix constant|text|ciphertext]; cbn [after].
  - rewrite startup_event_default. apply default_tables_shape.
  - apply run_analysis_shape, Hst.
  - rewrite encrypt_test_state. apply ensure_tables_shape, Hst.
  - rewrite decrypt_test_state. apply ensure_tables_shape, Hst.
Qed.

(** X2. Whatever events the service goes through, with whatever
    payloads, well-formed or not, its two tables are both unset or both
    256 entries long: a failing [run_analysis] never leaves a table of
    another length behind. *)
Theorem tables_shape_invariant (unicode_decimal : Z -> option Z) (events : list event) :
  tables_shape (foldl (after unicode_decimal) initial_tables events).
Proof.
  assert (H : forall st, tables_shape st ->
                         tables_shape (foldl (after unicode_decimal) st events)).
  { induction events as [|ev events IH]; intros st Hst; cbn [foldl].
    - exact Hst.
    - apply IH, after_shape, Hst. }
  apply H. left. split; reflexivity.
Qed.

(** ** Constants that are not bytes *)

Lemma lxor_cancel_l (r c : Z) : Z.lxor r (Z.lxor r c) = c.
Proof. rewrite <- Z.lxor_assoc, Z.lxor_nilpotent, Z.lxor_0_l. reflexivity. Qed.

Lemma lxor_byte_large (r c : Z) : is_byte r -> 255 < c -> 255 < Z.lxor r c.
Proof.
  intros Hr Hc. destruct (Z.lt_ge_cases 255 (Z.lxor r c)) as [H|H]; [exact H|].
  exfalso.
  assert (Hx : is_byte (Z.lxor r c)).
  { unfold is_byte. split; [|lia]. apply Z.lxor_nonneg. unfold is_byte in Hr. lia. }
  pose proof (lxor_byte r _ Hr Hx) as Hb. rewrite lxor_cancel_l in Hb.
  unfold is_byte in Hb. lia.
Qed.

Lemma lxor_byte_small (r c : Z) : is_byte r -> c < -256 -> Z.lxor r c < -256.
Proof.
  intros Hr Hc.
  replace c with (Z.lnot (- c - 1)) by (unfold Z.lnot; lia).
  rewrite <- Z.lnot_lxor_r.
  pose proof (lxor_byte_large r (- c - 1) Hr) as H.
  unfold Z.lnot. lia.
Qed.

Lemma setitem_outside {A : Type} (l : list A) (i : Z) (v : A) :
  i < - Z.of_nat (length l) \/ Z.of_nat (length l) <= i ->
  setitem l i v = Raise IndexError.
Proof.
  intros Hi. unfold setitem, norm_index.
  destruct ((0 <=? i) && (i <? Z.of_nat (length l))) eqn:H1; [lia|].
  destruct ((- Z.of_nat (length l) <=? i) && (i <? 0)) eqn:H2; [lia|].
  reflexivity.
Qed.

(** The loop of [generate_sbox_logic] with eight rows: every entry is
    a byte XORed with the constant. *)
Lemma sbox_loop_values (matrix : list Z) (constant : Z) :
  length matrix = 8%nat ->
  forall xs sbox,
  exists vals,
    sbox_loop matrix constant xs sbox = Ok (sbox ++ vals) /\
    Forall (fun v => exists r, is_byte r /\ v = Z.lxor r constant) vals.
Proof.
  intros Hlen. induction xs as [|x xs IH]; intros sbox.
  - exists []. rewrite app_nil_r. split; [reflexivity | constructor].
  - cbn [sbox_loop]. cbv zeta.
    destruct (apply_affine_value (gf_inverse x) matrix constant Hlen)
      as (r & Hr & ->).
    cbn [mbind res_bind].
    destruct (IH (sbox ++ [Z.lxor r constant])) as (vals & -> & Hvals).
    exists (Z.lxor r constant :: vals). rewrite <- app_assoc.
    split; [reflexivity|]. constructor; [exists r; split; [exact Hr | reflexivity] | exact Hvals].
Qed.

(** X3. With eight rows and a constant below -256 or above 255,
    [run_analysis] fails with an uncaught [IndexError] at the first
    write of the inverse loop; by then the new table, whose entries
    all lie outside -256..255, has replaced [CURRENT_SBOX], and
    [CURRENT_INV_SBOX] holds 256 zeros. *)
Theorem run_analysis_constant_out_of_range
    (st : tables) (matrix : list Z) (constant : Z) :
  length matrix = 8%nat -> constant < -256 \/ 255 < constant ->
  exists sbox,
    generate_sbox_logic matrix constant = Ok sbox /\
    length sbox = 256%nat /\
    Forall (fun v => v < -256 \/ 255 < v) sbox /\
    run_analysis st matrix constant
    = (Escapes IndexError, Tables sbox (replicate 256 0)).
Proof.
  intros Hlen Hc.
  destruct (sbox_loop_values matrix constant Hlen (range 256) [])
    as (sbox & Hgen & Hvals).
  cbn [app] in Hgen. fold (generate_sbox_logic matrix constant) in Hgen.
  pose proof (generate_sbox_logic_length _ _ _ Hgen) as Hsize.
  assert (Hout : Forall (fun v => v < -256 \/ 255 < v) sbox).
  { eapply Forall_impl; [exact Hvals|]. intros v (r & Hr & ->).
    destruct Hc as [Hc|Hc];
      [left; apply lxor_byte_small | right; apply lxor_byte_large]; assumption. }
  exists sbox. split; [exact Hgen|]. split; [exact Hsize|]. split; [exact Hout|].
  unfold run_analysis. rewrite Hgen.
  destruct sbox as [|v0 rest]; [discriminate|].
  apply Forall_cons_1 in Hout as [Hv0 _].
  unfold build_inverse. cbn [fill_inverse].
  rewrite setitem_outside by (rewrite length_replicate; lia).
  reflexivity.
Qed.

Lemma run_analysis_constant_out_of_range_witness :
  exists sbox,
    generate_sbox_logic K44_MATRIX 0x163 = Ok sbox /\
    run_analysis default_tables K44_MATRIX 0x163
    = (Escapes IndexError, Tables sbox (replicate 256 0)).
Proof.
  destruct (run_analysis_constant_out_of_range default_tables K44_MATRIX 0x163
              eq_refl) as (sbox & Hgen & _ & _ & Hrun); [right; lia|].
  exists sbox. split; [exact Hgen | exact Hrun].
Defined.

(** ** Rows past the eighth *)

Lemma getitem_app_l {A : Type} (l extra : list A) (i : Z) :
  0 <= i < Z.of_nat (length l) -> getitem (l ++ extra) i = getitem l i.
Proof.
  intros Hi.
  destruct (getitem_nonneg l i Hi) as (a & Ha & ->).
  destruct (getitem_nonneg (l ++ extra) i) as (a' & Ha' & ->).
  { rewrite length_app. lia. }
  rewrite lookup_app_l in Ha' by lia. congruence.
Qed.

Lemma affine_bit_loop_same_row (byte_val : Z) (m m' : list Z) (i : Z) (js : list Z) :
  getitem m' i = getitem m i ->
  forall bit, affine_bit_loop byte_val m' i js bit = affine_bit_loop byte_val m i js bit.
Proof.
  intros Hrow. induction js as [|j js IH]; intros bit; cbn [affine_bit_loop].
  - reflexivity.
  - rewrite Hrow. destruct (getitem m i) as [row|e]; [|reflexivity].
    cbn [mbind res_bind]. apply IH.
Qed.

Lemma affine_loop_same_rows (byte_val : Z) (m m' : list Z) (rows : list Z) :
  Forall (fun i => getitem m' i = getitem m i) rows ->
  forall result, affine_loop byte_val m' rows result = affine_loop byte_val m rows result.
Proof.
  induction 1 as [|i rows Hi _ IH]; intros result; cbn [affine_loop].
  - reflexivity.
  - rewrite (affine_bit_loop_same_row byte_val m m' i (range 8) Hi 0).
    destruct (affine_bit_loop byte_val m i (range 8) 0) as [bit|e]; [|reflexivity].
    cbn [mbind res_bind]. apply IH.
Qed.

Lemma apply_affine_extra_rows (byte_val : Z) (matrix extra : list Z) (constant : Z) :
  length matrix = 8%nat ->
  apply_affine byte_val (matrix ++ extra) constant = apply_affine byte_val matrix constant.
Proof.
  intros Hlen. unfold apply_affine. rewrite (affine_loop_same_rows byte_val matrix).
  - reflexivity.
  - apply Forall_forall. intros i Hi. apply range_elem in Hi.
    apply getitem_app_l. lia.
Qed.

Lemma sbox_loop_extra_rows (matrix extra : list Z) (constant : Z) (xs : list Z) :
  length matrix = 8%nat ->
  forall sbox,
    sbox_loop (matrix ++ extra) constant xs sbox = sbox_loop matrix constant xs sbox.
Proof.
  intros Hlen. induction xs as [|x xs IH]; intros sbox; cbn [sbox_loop].
  - reflexivity.
  - cbv zeta. rewrite apply_affine_extra_rows by exact Hlen.
    destruct (apply_affine (gf_inverse x) matrix constant) as [v|e]; [|reflexivity].
    cbn [mbind res_bind]. apply IH.
Qed.

(** X4. Only the first eight rows of the matrix are read: rows after
    the eighth change neither the reply of [run_analysis] nor the
    tables it stores. *)
Theorem run_analysis_ignores_extra_rows
    (st : tables) (matrix extra : list Z) (constant : Z) :
  length matrix = 8%nat ->
  run_analysis st (matrix ++ extra) constant = run_analysis st matrix constant.
Proof.
  intros Hlen. unfold run_analysis, generate_sbox_logic.
  rewrite sbox_loop_extra_rows by exact Hlen. reflexivity.
Qed.

Lemma run_analysis_ignores_extra_rows_witness :
  run_analysis initial_tables (K44_MATRIX ++ [0xFF; 0x01]) K44_CONST
  = run_analysis initial_tables K44_MATRIX K44_CONST.
Proof.
  apply (run_analysis_ignores_extra_rows initial_tables K44_MATRIX [0xFF; 0x01]).
  reflexivity.
Defined.

(** ** The affine transform bit by bit *)

Lemma testbit_one (k : Z) : Z.testbit 1 k = (k =? 0).
Proof. destruct k; reflexivity. Qed.

Lemma truthy_b2z (b : bool) : truthy (Z.b2z b) = b.
Proof. destruct b; reflexivity. Qed.

(** The inner loop XORs into [bit] the parity of [row AND byte_val]. *)
Lemma affine_bit_loop_value (byte_val : Z) (matrix : list Z) (i row : Z) (js : list Z) :
  getitem matrix i = Ok row -> Forall (fun j => 0 <= j) js ->
  forall b : bool,
    affine_bit_loop byte_val matrix i js (Z.b2z b)
    = Ok (Z.b2z (xorb b (parity row byte_val js))).
Proof.
  intros Hrow. induction 1 as [|j js Hj _ IH]; intros b.
  - cbn [affine_bit_loop parity]. rewrite xorb_false_r. reflexivity.
  - cbn [affine_bit_loop parity]. rewrite Hrow. cbn [mbind res_bind].
    rewrite !truthy_low_bit by exact Hj.
    rewrite <- xorb_assoc_reverse. rewrite <- IH. f_equal.
    destruct (Z.testbit row j), (Z.testbit byte_val j), b; reflexivity.
Qed.

(** The outer loop sets bit [i] of [result] for the rows [i] whose
    parity is odd. *)
Lemma affine_loop_bits (byte_val : Z) (matrix : list Z) (rows : list Z) :
  length matrix = 8%nat -> Forall (fun i => 0 <= i < 8) rows ->
  forall result,
  exists r,
    affine_loop byte_val matrix rows result = Ok r /\
    forall n row, 0 <= n -> matrix !! Z.to_nat n = Some row ->
      Z.testbit r n
      = Z.testbit result n || (bool_decide (n ∈ rows) && parity row byte_val (range 8)).
Proof.
  intros Hlen. induction 1 as [|i rows Hi _ IH]; intros result.
  - exists result. split; [reflexivity|]. intros n row _ _.
    rewrite bool_decide_eq_false_2 by (apply not_elem_of_nil).
    rewrite orb_false_r. reflexivity.
  - cbn [affine_loop].
    destruct (getitem_nonneg matrix i) as (row_i & Hlook & Hrow); [lia|].
    change 0 with (Z.b2z false) at 1.
    rewrite (affine_bit_loop_value byte_val matrix i row_i (range 8) Hrow).
    2:{ apply Forall_forall. intros j Hj. apply range_elem in Hj. lia. }
    cbn [mbind res_bind]. rewrite xorb_false_l, truthy_b2z.
    destruct (IH (if parity row_i byte_val (range 8)
                  then Z.lor result (Z.shiftl 1 i) else result))
      as (r & Hr & Hbits).
    exists r. split; [exact Hr|]. intros n row Hn Hn_row.
    rewrite (Hbits n row Hn Hn_row).
    destruct (decide (n = i)) as [->|Hne].
    + rewrite Hlook in Hn_row. injection Hn_row as ->.
      rewrite (bool_decide_eq_true_2 (i ∈ i :: rows)) by (apply list_elem_of_here).
      destruct (parity row byte_val (range 8)).
      * rewrite Z.lor_spec, Z.shiftl_spec, testbit_one by lia.
        replace (i - i =? 0) with true by (symmetry; apply Z.eqb_eq; lia).
        rewrite !orb_true_r. reflexivity.
      * rewrite !andb_false_r, !orb_false_r. reflexivity.
    + assert (Hsame : Z.testbit (if parity row_i byte_val (range 8)
                                 then Z.lor result (Z.shiftl 1 i) else result) n
                      = Z.testbit result n).
      { destruct (parity row_i byte_val (range 8)); [|reflexivity].
        rewrite Z.lor_spec, Z.shiftl_spec, testbit_one by lia.
        replace (n - i =? 0) with false by (symmetry; apply Z.eqb_neq; lia).
        apply orb_false_r. }
      rewrite Hsame. f_equal. f_equal.
      apply bool_decide_ext. rewrite elem_of_cons. tauto.
Qed.

(** Bit [n] of the result, for every [n]: the parity of row [n] under
    8, XORed with bit [n] of the constant. *)
Lemma apply_affine_testbit (byte_val : Z) (matrix : list Z) (constant : Z) :
  length matrix = 8%nat ->
  exists v,
    apply_affine byte_val matrix constant = Ok v /\
    (forall (i : nat) (row : Z), matrix !! i = Some row ->
       Z.testbit v (Z.of_nat i)
       = xorb (parity row byte_val (range 8)) (Z.testbit constant (Z.of_nat i))) /\
    (forall n, 8 <= n -> Z.testbit v n = Z.testbit constant n).
Proof.
  intros Hlen. unfold apply_affine.
  destruct (affine_loop_bits byte_val matrix (range 8) Hlen
              (range_8_bounds matrix Hlen) 0) as (r & Hr & Hbits).
  destruct (affine_loop_byte byte_val matrix Hlen (range 8)
              (range_8_bounds matrix Hlen) 0) as (r' & Hr' & Hbyte);
    [unfold is_byte; lia|].
  rewrite Hr in Hr'. injection Hr' as <-.
  rewrite Hr. cbn [mbind res_bind mret res_ret].
  eexists. split; [reflexivity|]. split.
  - intros i row Hi. rewrite Z.lxor_spec. f_equal.
    pose proof (lookup_lt_Some _ _ _ Hi) as Hlt.
    rewrite (Hbits (Z.of_nat i) row (Nat2Z.is_nonneg i))
      by (rewrite Nat2Z.id; exact Hi).
    rewrite Z.bits_0, orb_false_l.
    rewrite bool_decide_eq_true_2 by (apply range_elem; lia). reflexivity.
  - intros n Hn. rewrite Z.lxor_spec, (byte_high_bits r Hbyte n Hn). reflexivity.
Qed.

(** X5. With eight rows, bit [i] of [apply_affine byte_val matrix
    constant], for [i] below 8, is the XOR over [j] in 0..7 of
    (bit [j] of [matrix[i]] AND bit [j] of [byte_val]), XORed with bit
    [i] of the constant; the bits from 8 upwards are those of the
    constant. *)
Theorem apply_affine_bit_parity (byte_val : Z) (matrix : list Z) (constant : Z) :
  length matrix = 8%nat ->
  exists v,
    apply_affine byte_val matrix constant = Ok v /\
    (forall (i : nat) (row : Z), matrix !! i = Some row ->
       Z.testbit v (Z.of_nat i)
       = xorb (parity row byte_val [0; 1; 2; 3; 4; 5; 6; 7])
              (Z.testbit constant (Z.of_nat i))) /\
    (forall n, 8 <= n -> Z.testbit v n = Z.testbit constant n).
Proof. intros Hlen. rewrite <- range_8_eq. apply apply_affine_testbit, Hlen. Qed.

Lemma apply_affine_bit_parity_witness :
  exists v,
    apply_affine 0x53 K44_MATRIX K44_CONST = Ok v /\
    Z.testbit v 0 = xorb (parity 0x57 0x53 [0; 1; 2; 3; 4; 5; 6; 7]) (Z.testbit K44_CONST 0).
Proof.
  destruct (apply_affine_bit_parity 0x53 K44_MATRIX K44_CONST eq_refl)
    as (v & Hv & Hbits & _).
  exists v. split; [exact Hv|]. apply (Hbits 0%nat 0x57). reflexivity.
Defined.

Lemma parity_lxor (row a b : Z) (js : list Z) :
  parity row (Z.lxor a b) js = xorb (parity row a js) (parity row b js).
Proof.
  induction js as [|j js IH]; cbn [parity]; [reflexivity|].
  rewrite IH, Z.lxor_spec.
  destruct (Z.testbit row j), (Z.testbit a j), (Z.testbit b j),
    (parity row a js), (parity row b js); reflexivity.
Qed.

Lemma parity_zero (row : Z) (js : list Z) : parity row 0 js = false.
Proof.
  induction js as [|j js IH]; cbn [parity]; [reflexivity|].
  rewrite IH, Z.bits_0, andb_false_r. reflexivity.
Qed.

(** Two results of [apply_affine] with the same bits are equal. *)
Lemma bits_below_and_above (v w : Z) :
  (forall i : nat, (i < 8)%nat -> Z.testbit v (Z.of_nat i) = Z.testbit w (Z.of_nat i)) ->
  (forall n, 8 <= n -> Z.testbit v n = Z.testbit w n) ->
  v = w.
Proof.
  intros Hlow Hhigh. apply Z.bits_inj'. intros n Hn.
  destruct (Z.lt_ge_cases n 8) as [Hlt|Hge]; [|apply Hhigh, Hge].
  rewrite <- (Z2Nat.id n Hn). apply Hlow. lia.
Qed.

(** X6. [apply_affine] is affine over GF(2): with eight rows, the
    transform of [a XOR b] is the XOR of the transforms of [a] and of
    [b], XORed once more with the constant. *)
Theorem apply_affine_xor (a b : Z) (matrix : list Z) (constant : Z) :
  length matrix = 8%nat ->
  exists va vb,
    apply_affine a matrix constant = Ok va /\
    apply_affine b matrix constant = Ok vb /\
    apply_affine (Z.lxor a b) matrix constant = Ok (Z.lxor (Z.lxor va vb) constant).
Proof.
  intros Hlen.
  destruct (apply_affine_testbit a matrix constant Hlen) as (va & Hva & Ha & Ha').
  destruct (apply_affine_testbit b matrix constant Hlen) as (vb & Hvb & Hb & Hb').
  destruct (apply_affine_testbit (Z.lxor a b) matrix constant Hlen)
    as (v & Hv & Hab & Hab').
  exists va, vb. split; [exact Hva|]. split; [exact Hvb|].
  rewrite Hv. f_equal. apply bits_below_and_above.
  - intros i Hi.
    destruct (lookup_lt_is_Some_2 matrix i) as [row Hrow]; [lia|].
    rewrite !Z.lxor_spec, (Hab i row Hrow), (Ha i row Hrow), (Hb i row Hrow).
    rewrite parity_lxor.
    destruct (parity row a (range 8)), (parity row b (range 8)),
      (Z.testbit constant (Z.of_nat i)); reflexivity.
  - intros n Hn. rewrite !Z.lxor_spec, (Hab' n Hn), (Ha' n Hn), (Hb' n Hn).
    destruct (Z.testbit constant n); reflexivity.
Qed.

Lemma apply_affine_xor_witness :
  exists va vb,
    apply_affine 0x53 K44_MATRIX K44_CONST = Ok va /\
    apply_affine 0xCA K44_MATRIX K44_CONST = Ok vb /\
    apply_affine (Z.lxor 0x53 0xCA) K44_MATRIX K44_CONST
    = Ok (Z.lxor (Z.lxor va vb) K44_CONST).
Proof. apply (apply_affine_xor 0x53 0xCA K44_MATRIX K44_CONST). reflexivity. Defined.

Lemma apply_affine_zero (matrix : list Z) (constant : Z) :
  length matrix = 8%nat -> apply_affine 0 matrix constant = Ok constant.
Proof.
  intros Hlen.
  destruct (apply_affine_testbit 0 matrix constant Hlen) as (v & -> & Hlow & Hhigh).
  f_equal. apply bits_below_and_above; [|exact Hhigh].
  intros i Hi. destruct (lookup_lt_is_Some_2 matrix i) as [row Hrow]; [lia|].
  rewrite (Hlow i row Hrow), parity_zero. reflexivity.
Qed.

(** X7. For every matrix of eight rows and every constant, the table
    entry for input byte 0 is the constant itself. *)
Theorem generate_sbox_logic_entry_zero (matrix : list Z) (constant : Z) :
  length matrix = 8%nat ->
  exists sbox,
    generate_sbox_logic matrix constant = Ok sbox /\
    sbox !! 0%nat = Some constant.
Proof.
  intros Hlen. unfold generate_sbox_logic.
  destruct range_256_head as [rest ->]. cbn [sbox_loop]. cbv zeta.
  change (gf_inverse 0) with 0. rewrite apply_affine_zero by exact Hlen.
  cbn [mbind res_bind].
  destruct (sbox_loop_values matrix constant Hlen rest ([] ++ [constant]))
    as (vals & -> & _).
  eexists. split; reflexivity.
Qed.

Lemma generate_sbox_logic_entry_zero_witness :
  exists sbox,
    generate_sbox_logic [0xF1; 0xE3; 0xC7; 0x8F; 0x1F; 0x3E; 0x7C; 0xF8] 0x1A5 = Ok sbox /\
    sbox !! 0%nat = Some 0x1A5.
Proof.
  apply (generate_sbox_logic_entry_zero
           [0xF1; 0xE3; 0xC7; 0x8F; 0x1F; 0x3E; 0x7C; 0xF8] 0x1A5).
  reflexivity.
Defined.

(** ** Tables with and without repeated entries *)

Lemma last_occurrence (l : list Z) (v : Z) :
  v ∈ l ->
  exists k : nat, l !! k = Some v /\ forall j : nat, (k < j)%nat -> l !! j <> Some v.
Proof.
  induction l as [|a l IH]; intros Hin; [inversion Hin|].
  destruct (decide (v ∈ l)) as [Hl|Hl].
  - destruct (IH Hl) as (k & Hk & Hlast). exists (S k). split; [exact Hk|].
    intros [|j] Hj; [lia|]. apply Hlast. lia.
  - apply elem_of_cons in Hin as [->|Hin]; [|contradiction].
    exists 0%nat. split; [reflexivity|].
    intros [|j] Hj; [lia|]. cbn. intros Hj'. apply Hl.
    eapply list_elem_of_lookup_2, Hj'.
Qed.

Lemma getitem_elem {A : Type} (l : list A) (i : Z) (a : A) :
  getitem l i = Ok a -> a ∈ l.
Proof.
  unfold getitem. destruct (norm_index l i) as [k|]; [|discriminate].
  destruct (l !! k) as [a'|] eqn:Hk; [|discriminate].
  intros [= <-]. eapply list_elem_of_lookup_2, Hk.
Qed.

Lemma getitem_lookup (l : list Z) (i : nat) (a : Z) :
  l !! i = Some a -> getitem l (Z.of_nat i) = Ok a.
Proof.
  intros Hi. pose proof (lookup_lt_Some _ _ _ Hi) as Hlt.
  destruct (getitem_nonneg l (Z.of_nat i)) as (a' & Ha' & ->); [lia|].
  rewrite Nat2Z.id in Ha'. congruence.
Qed.

Lemma encode_decode_steps (table inv : list Z) (x v y : Z) :
  getitem table x = Ok v -> getitem inv v = Ok y ->
  encode_decode (Tables table inv) x = Ok [y].
Proof.
  intros Hv Hy. unfold encode_decode. cbn [CURRENT_SBOX CURRENT_INV_SBOX substitute].
  rewrite Hv. cbn [mbind res_bind mret res_ret substitute]. rewrite Hy. reflexivity.
Qed.

(** What the inverse table holds for a value of the table: the last
    index that produces it. *)
Lemma inverse_of_entry (table : list Z) (v : Z) :
  Forall is_byte table -> v ∈ table ->
  exists k : nat,
    table !! k = Some v /\
    (forall j : nat, (k < j)%nat -> table !! j <> Some v) /\
    getitem (inverse_writes 0 table (replicate 256 0)) v = Ok (Z.of_nat k).
Proof.
  intros Htable Hin.
  destruct (last_occurrence table v Hin) as (k & Hk & Hlast).
  exists k. split; [exact Hk|]. split; [exact Hlast|].
  pose proof (inverse_writes_last table 0 (replicate 256 0) k v Htable
                (length_replicate _ _) Hk Hlast) as Hinv.
  rewrite Forall_forall in Htable. pose proof (Htable v Hin) as Hv.
  destruct (getitem_nonneg (inverse_writes 0 table (replicate 256 0)) v)
    as (a & Ha & ->).
  { rewrite inverse_writes_length, length_replicate. unfold is_byte in Hv. lia. }
  rewrite Hinv in Ha. injection Ha as <-. reflexivity.
Qed.

(** X8. When two inputs [x < y] have the same entry in a table of
    bytes, encoding [x] and decoding through the inverse table built
    from it does not return [x]: it returns the largest input with
    that entry, which is at least [y]. *)
Theorem colliding_entries_decode_to_last (table : list Z) (x y : nat) (v : Z) :
  Forall is_byte table ->
  table !! x = Some v -> table !! y = Some v -> (x < y)%nat ->
  exists inv (z : nat),
    build_inverse table = (inv, None) /\
    encode_decode (Tables table inv) (Z.of_nat x) = Ok [Z.of_nat z] /\
    (y <= z)%nat /\ table !! z = Some v.
Proof.
  intros Htable Hx Hy Hxy.
  destruct (inverse_of_entry table v Htable) as (k & Hk & Hlast & Hinv).
  { eapply list_elem_of_lookup_2, Hx. }
  exists (inverse_writes 0 table (replicate 256 0)), k.
  split; [apply build_inverse_writes, Htable|].
  split; [eapply encode_decode_steps; [apply getitem_lookup, Hx | exact Hinv]|].
  split; [|exact Hk].
  destruct (Nat.le_gt_cases y k) as [Hle|Hgt]; [exact Hle|].
  exfalso. exact (Hlast y Hgt Hy).
Qed.

Lemma colliding_entries_decode_to_last_witness :
  exists inv (z : nat),
    build_inverse [7; 9; 7; 3] = (inv, None) /\
    encode_decode (Tables [7; 9; 7; 3] inv) 0 = Ok [Z.of_nat z] /\
    (2 <= z)%nat.
Proof.
  assert (Hb : Forall is_byte [7; 9; 7; 3]) by (each_entry; unfold is_byte; lia).
  destruct (colliding_entries_decode_to_last [7; 9; 7; 3] 0 2 7 Hb eq_refl eq_refl)
    as (inv & z & Hinv & Henc & Hz & _); [lia|].
  exists inv, z. split; [exact Hinv|]. split; [exact Henc | exact Hz].
Defined.

Lemma injective_table_roundtrip (table : list Z) (x : Z) :
  length table = 256%nat -> Forall is_byte table -> NoDup table -> is_byte x ->
  encode_decode (Tables table (inverse_writes 0 table (replicate 256 0))) x = Ok [x].
Proof.
  intros Hlen Htable Hnodup Hx.
  destruct (getitem_nonneg table x) as (v & Hv & Hget); [unfold is_byte in Hx; lia|].
  destruct (inverse_of_entry table v Htable) as (k & Hk & _ & Hinv).
  { eapply list_elem_of_lookup_2, Hv. }
  pose proof (NoDup_lookup _ _ _ _ Hnodup Hk Hv) as ->.
  rewrite Z2Nat.id in Hinv by (unfold is_byte in Hx; lia).
  eapply encode_decode_steps; eassumption.
Qed.

(** X9. After [run_analysis] with eight rows and a byte constant,
    decoding inverts encoding on every byte exactly when the
    generated table has no repeated entry. *)
Theorem run_analysis_invertible_iff (st : tables) (matrix : list Z) (constant : Z) :
  length matrix = 8%nat -> is_byte constant ->
  exists body st',
    run_analysis st matrix constant = (Return body, st') /\
    ((forall x, is_byte x -> encode_decode st' x = Ok [x])
     <-> NoDup (CURRENT_SBOX st')).
Proof.
  intros Hlen Hc.
  destruct (run_analysis_returns st matrix constant Hlen Hc)
    as (sbox & inv & Hgen & Hinv & Hrun).
  destruct (generate_sbox_logic_returns matrix constant Hlen Hc)
    as (sbox' & Hgen' & _ & Hbytes).
  rewrite Hgen in Hgen'. injection Hgen' as <-.
  pose proof (generate_sbox_logic_length _ _ _ Hgen) as Hsize.
  assert (Heq : inv = inverse_writes 0 sbox (replicate 256 0))
    by (rewrite (build_inverse_writes sbox Hbytes) in Hinv; congruence).
  subst inv.
  eexists _, _. split; [exact Hrun|]. cbn [CURRENT_SBOX]. split.
  - intros Hround. apply NoDup_alt. intros i j v Hi Hj.
    destruct (Nat.lt_trichotomy i j) as [Hlt|[Heq|Hgt]]; [exfalso|exact Heq|exfalso].
    + destruct (inverse_of_entry sbox v Hbytes) as (k & Hk & Hlast & Hget).
      { eapply list_elem_of_lookup_2, Hi. }
      pose proof (lookup_lt_Some _ _ _ Hj) as Hjlt.
      pose proof (encode_decode_steps sbox _ (Z.of_nat i) v (Z.of_nat k)
                    (getitem_lookup _ _ _ Hi) Hget) as Hsteps.
      assert (Hbyte : is_byte (Z.of_nat i)) by (unfold is_byte; lia).
      pose proof (Hround (Z.of_nat i) Hbyte) as Hback.
      assert (Hik : Z.of_nat k = Z.of_nat i) by congruence.
      apply (Hlast j); [lia | exact Hj].
    + destruct (inverse_of_entry sbox v Hbytes) as (k & Hk & Hlast & Hget).
      { eapply list_elem_of_lookup_2, Hj. }
      pose proof (lookup_lt_Some _ _ _ Hi) as Hilt.
      pose proof (encode_decode_steps sbox _ (Z.of_nat j) v (Z.of_nat k)
                    (getitem_lookup _ _ _ Hj) Hget) as Hsteps.
      assert (Hbyte : is_byte (Z.of_nat j)) by (unfold is_byte; lia).
      pose proof (Hround (Z.of_nat j) Hbyte) as Hback.
      assert (Hjk : Z.of_nat k = Z.of_nat j) by congruence.
      apply (Hlast i); [lia | exact Hi].
  - intros Hnodup x Hx. apply injective_table_roundtrip; assumption.
Qed.

Lemma run_analysis_invertible_iff_witness :
  exists body st',
    run_analysis initial_tables [0; 0; 0; 0; 0; 0; 0; 0] 0x63 = (Return body, st') /\
    ((forall x, is_byte x -> encode_decode st' x = Ok [x])
     <-> NoDup (CURRENT_SBOX st')).
Proof.
  apply (run_analysis_invertible_iff initial_tables [0; 0; 0; 0; 0; 0; 0; 0] 0x63).
  - reflexivity.
  - unfold is_byte. lia.
Defined.

(** ** UTF-8 round trip *)

Lemma all_from_sound (p : Z -> bool) (n : nat) :
  forall c, all_from p n c = true ->
  forall x, c <= x < c + Z.of_nat n -> p x = true.
Proof.
  induction n as [|n IH]; intros c Hall x Hx; [lia|].
  cbn [all_from] in Hall. destruct (p c) eqn:Hc; [|discriminate].
  destruct (decide (x = c)) as [->|Hne]; [exact Hc|].
  apply (IH (c + 1) Hall). lia.
Qed.

Lemma utf8_all_code_points :
  all_from utf8_char_roundtrip (Z.to_nat 0x110000) 0 = true.
Proof. vm_cast_no_check (eq_refl true). Qed.

Lemma utf8_encode_char_decodes (c : Z) :
  scalar_value c ->
  exists bs, utf8_encode_char c = Ok bs /\ utf8_decode bs = Ok [c].
Proof.
  intros [Hrange Hnot].
  pose proof (all_from_sound _ _ 0 utf8_all_code_points c) as Hc.
  rewrite Z2Nat.id in Hc by lia. specialize (Hc ltac:(lia)).
  unfold utf8_char_roundtrip in Hc.
  destruct (utf8_encode_char c) as [bs|e].
  - exists bs. split; [reflexivity|].
    destruct (utf8_decode bs) as [[|c' [|c'' s]]|e]; try discriminate.
    apply Z.eqb_eq in Hc. subst c'. reflexivity.
  - exfalso. apply Hnot. unfold between in Hc. lia.
Qed.

Lemma res_bind_cons (c : Z) (sa : str) (m : res str) :
  (s ← (sb ← m; mret (sa ++ sb)); mret (c :: s))
  = (sb ← m; mret ((c :: sa) ++ sb)).
Proof. destruct m; reflexivity. Qed.

(** Bytes that decode, followed by more bytes, decode to the same
    text followed by the text of the rest. *)
Lemma utf8_decode_app_bounded (n : nat) :
  forall (a : list Z) (sa : str) (b : list Z),
    (length a <= n)%nat -> utf8_decode a = Ok sa ->
    utf8_decode (a ++ b) = (sb ← utf8_decode b; mret (sa ++ sb)).
Proof.
  induction n as [|n IH]; intros a sa b Hlen Ha.
  - destruct a; [|cbn in Hlen; lia]. injection Ha as <-.
    cbn [app]. destruct (utf8_decode b); reflexivity.
  - destruct a as [|b0 r1].
    { injection Ha as <-. cbn [app]. destruct (utf8_decode b); reflexivity. }
    cbn [length] in Hlen. cbn [utf8_decode app] in Ha |- *.
    destruct (between 0 127 b0).
    { destruct (utf8_decode r1) as [s|e] eqn:Hr; [|discriminate].
      injection Ha as <-. rewrite (IH r1 s b) by (lia || exact Hr).
      apply res_bind_cons. }
    destruct (between 194 223 b0).
    { destruct r1 as [|b1 r2]; [discriminate|]. cbn [app length] in *.
      destruct (continuation b1); [|discriminate].
      destruct (utf8_decode r2) as [s|e] eqn:Hr; [|discriminate].
      injection Ha as <-. rewrite (IH r2 s b) by (lia || exact Hr).
      apply res_bind_cons. }
    destruct (between 224 239 b0).
    { destruct r1 as [|b1 [|b2 r3]]; try discriminate. cbn [app length] in *.
      destruct (between _ _ b1 && continuation b2); [|discriminate].
      destruct (utf8_decode r3) as [s|e] eqn:Hr; [|discriminate].
      injection Ha as <-. rewrite (IH r3 s b) by (lia || exact Hr).
      apply res_bind_cons. }
    destruct (between 240 244 b0); [|discriminate].
    destruct r1 as [|b1 [|b2 [|b3 r4]]]; try discriminate. cbn [app length] in *.
    destruct (between _ _ b1 && continuation b2 && continuation b3); [|discriminate].
    destruct (utf8_decode r4) as [s|e] eqn:Hr; [|discriminate].
    injection Ha as <-. rewrite (IH r4 s b) by (lia || exact Hr).
    apply res_bind_cons.
Qed.

Lemma utf8_decode_app (a : list Z) (sa : str) (b : list Z) :
  utf8_decode a = Ok sa ->
  utf8_decode (a ++ b) = (sb ← utf8_decode b; mret (sa ++ sb)).
Proof. apply (utf8_decode_app_bounded (length a)). lia. Qed.

(** Text of scalar values encodes, to bytes, and the bytes decode to
    the text. *)
Lemma utf8_roundtrip (text : str) :
  Forall scalar_value text ->
  exists bs, utf8_encode text = Ok bs /\ Forall is_byte bs /\ utf8_decode bs = Ok text.
Proof.
  induction 1 as [|c rest Hc Hrest IH].
  - exists []. split; [reflexivity|]. split; [constructor | reflexivity].
  - destruct IH as (bs_rest & Henc & Hbytes & Hdec).
    destruct (utf8_encode_char_decodes c Hc) as (bs_c & Hc_enc & Hc_dec).
    exists (bs_c ++ bs_rest). cbn [utf8_encode]. rewrite Hc_enc, Henc.
    split; [reflexivity|]. split.
    + apply Forall_app. split; [|exact Hbytes].
      apply (utf8_encode_char_bytes c); [destruct Hc; lia | exact Hc_enc].
    + rewrite (utf8_decode_app bs_c [c] bs_rest Hc_dec), Hdec. reflexivity.
Qed.

(** ** Tokens *)

Lemma str_split_from_run (tok rest cur : str) :
  Forall (fun c => isspace c = false) tok ->
  str_split_from (tok ++ rest) cur = str_split_from rest (cur ++ tok).
Proof.
  intros Htok. revert cur. induction Htok as [|c tok Hc _ IH]; intros cur.
  - rewrite app_nil_r. reflexivity.
  - cbn [app str_split_from]. rewrite Hc, IH, <- app_assoc. reflexivity.
Qed.

Lemma str_join_cons (sep p q : str) (rest : list str) :
  str_join sep (p :: q :: rest) = p ++ sep ++ str_join sep (q :: rest).
Proof. reflexivity. Qed.

(** Joining tokens as [split()] produces them (not empty, no blank
    inside) with single spaces and splitting again gives the tokens. *)
Lemma str_split_join (toks : list str) :
  Forall (fun tok => tok <> [] /\ Forall (fun c => isspace c = false) tok) toks ->
  str_split (str_join (lit " ") toks) = toks.
Proof.
  unfold str_split. induction 1 as [|p rest [Hne Hp] Hrest IH]; [reflexivity|].
  destruct p as [|c0 p']; [contradiction|].
  destruct rest as [|q rest'].
  - change (str_join (lit " ") [c0 :: p']) with (c0 :: p').
    rewrite <- (app_nil_r (c0 :: p')) at 1.
    rewrite str_split_from_run by exact Hp. reflexivity.
  - rewrite str_join_cons, str_split_from_run by exact Hp.
    change (lit " " ++ ?x) with (32 :: x). cbn [app str_split_from].
    change (isspace 32) with true. cbv iota. f_equal. exact IH.
Qed.

Lemma str_split_from_trailing_blank (s : str) (c : Z) :
  isspace c = true ->
  forall cur, str_split_from (s ++ [c]) cur = str_split_from s cur.
Proof.
  intros Hc. induction s as [|a s IH]; intros cur.
  - cbn [app str_split_from]. rewrite Hc. destruct cur; reflexivity.
  - cbn [app str_split_from]. destruct (isspace a); [destruct cur|]; rewrite IH; reflexivity.
Qed.

Lemma str_split_lstrip (s : str) : str_split (str_lstrip s) = str_split s.
Proof.
  unfold str_split. induction s as [|c s IH]; [reflexivity|].
  cbn [str_lstrip]. destruct (isspace c) eqn:Hc; [|reflexivity].
  cbn [str_split_from]. rewrite Hc. exact IH.
Qed.

Lemma str_split_rstrip (r : str) :
  str_split (reverse (str_lstrip r)) = str_split (reverse r).
Proof.
  induction r as [|c r IH]; [reflexivity|].
  cbn [str_lstrip]. destruct (isspace c) eqn:Hc; [|reflexivity].
  rewrite IH, reverse_cons. unfold str_split.
  rewrite str_split_from_trailing_blank by exact Hc. reflexivity.
Qed.

(** [strip()] before [split()] changes nothing. *)
Lemma str_split_strip (s : str) : str_split (str_strip s) = str_split s.
Proof.
  unfold str_strip. rewrite str_split_rstrip, reverse_involutive.
  apply str_split_lstrip.
Qed.

Lemma hex_tokens_clean :
  forallb (fun v =>
             match format_02X v with
             | [] => false
             | tok => forallb (fun c => negb (isspace c)) tok
             end) (range 256) = true.
Proof. vm_compute. reflexivity. Qed.

Lemma format_02X_clean (vs : list Z) :
  Forall is_byte vs ->
  Forall (fun tok => tok <> [] /\ Forall (fun c => isspace c = false) tok)
    (map format_02X vs).
Proof.
  intros Hvs. apply Forall_fmap. eapply Forall_impl; [exact Hvs|].
  intros v Hv. unfold compose. cbv beta.
  pose proof (all_bytes_bool _ hex_tokens_clean v Hv) as Hclean.
  cbv beta in Hclean.
  destruct (format_02X v) as [|c tok]; [discriminate|].
  split; [intros [=]|].
  apply Forall_forall. intros d Hd. rewrite forallb_forall in Hclean.
  apply negb_true_iff, Hclean, list_elem_of_In, Hd.
Qed.

Lemma int16_format_02X (unicode_decimal : Z -> option Z) :
  Forall (fun v => int16 unicode_decimal (format_02X v) = Some v) (range 256).
Proof. apply (bool_decide_unpack _). vm_compute. reflexivity. Qed.

Lemma int16_all_format_02X (unicode_decimal : Z -> option Z) (vs : list Z) :
  Forall is_byte vs ->
  int16_all unicode_decimal (map format_02X vs) = Ok vs.
Proof.
  induction 1 as [|v vs Hv _ IH]; [reflexivity|].
  cbn [map int16_all].
  rewrite (all_bytes _ (int16_format_02X unicode_decimal) v Hv), IH. reflexivity.
Qed.

(** What [decrypt_test] reads back from the output of [encrypt_test]. *)
Lemma hex_output_parses (unicode_decimal : Z -> option Z) (vs : list Z) :
  Forall is_byte vs ->
  int16_all unicode_decimal
    (str_split (str_strip (str_join (lit " ") (map format_02X vs)))) = Ok vs.
Proof.
  intros Hvs. rewrite str_split_strip, str_split_join by (apply format_02X_clean, Hvs).
  apply int16_all_format_02X, Hvs.
Qed.

(** ** Decrypting what was encrypted *)

Lemma bytes_of_bytes (l : list Z) : Forall is_byte l -> bytes l = Ok l.
Proof.
  intros Hl. unfold bytes.
  replace (forallb (between 0 255) l) with true; [reflexivity|].
  symmetry. apply forallb_forall. intros v Hv.
  rewrite Forall_forall in Hl. apply list_elem_of_In, Hl in Hv.
  unfold is_byte in Hv. unfold between.
  apply andb_true_intro. split; apply Z.leb_le; lia.
Qed.

Lemma encode_decode_entry (st : tables) (x : Z) :
  encode_decode st x = Ok [x] ->
  exists v, getitem (CURRENT_SBOX st) x = Ok v /\ getitem (CURRENT_INV_SBOX st) v = Ok x.
Proof.
  unfold encode_decode. cbn [substitute].
  destruct (getitem (CURRENT_SBOX st) x) as [v|e]; [|discriminate].
  cbn [mbind res_bind mret res_ret substitute].
  destruct (getitem (CURRENT_INV_SBOX st) v) as [y|e] eqn:Hy; [|discriminate].
  intros [= ->]. exists v. split; [reflexivity | exact Hy].
Qed.

Lemma substitute_inverse (st : tables) (bs : list Z) :
  (forall x, is_byte x -> encode_decode st x = Ok [x]) ->
  Forall is_byte bs ->
  exists out,
    substitute (CURRENT_SBOX st) bs = Ok out /\
    substitute (CURRENT_INV_SBOX st) out = Ok bs /\
    Forall (fun v => v ∈ CURRENT_SBOX st) out.
Proof.
  intros Hround. induction 1 as [|b bs Hb _ IH].
  - exists []. repeat split; constructor.
  - destruct IH as (out & Hout & Hback & Hin).
    destruct (encode_decode_entry st b (Hround b Hb)) as (v & Hv & Hx).
    exists (v :: out). cbn [substitute]. rewrite Hv, Hout, Hx, Hback.
    split; [reflexivity|]. split; [reflexivity|].
    constructor; [eapply getitem_elem, Hv | exact Hin].
Qed.

Lemma ensure_tables_set (table : tables -> list Z) (st : tables) :
  table st <> [] -> ensure_tables table st = (st, None).
Proof.
  intros Hne. destruct (ensure_tables_cases table st) as [[H _]|[_ H]];
    [contradiction | exact H].
Qed.

(** X10. When the table holds bytes and decoding inverts encoding on
    every byte, [decrypt_test] returns every text of Unicode scalar
    values from the output of [encrypt_test], whatever its length and
    characters. *)
Theorem decrypt_test_inverts_encrypt_test
    (unicode_decimal : Z -> option Z) (st : tables) (text : str) :
  Forall is_byte (CURRENT_SBOX st) ->
  (forall x, is_byte x -> encode_decode st x = Ok [x]) ->
  Forall scalar_value text ->
  exists hex_output,
    encrypt_test st text = (Return hex_output, st) /\
    decrypt_test unicode_decimal st hex_output = (Return text, st).
Proof.
  intros Hbytes Hround Htext.
  destruct (utf8_roundtrip text Htext) as (bs & Henc & Hbs & Hdec).
  destruct (substitute_inverse st bs Hround Hbs) as (out & Hout & Hback & Hin).
  assert (Hout_bytes : Forall is_byte out).
  { eapply Forall_impl; [exact Hin|]. intros v Hv. cbv beta in Hv.
    rewrite Forall_forall in Hbytes. apply Hbytes, Hv. }
  destruct (encode_decode_entry st 0 (Hround 0 ltac:(unfold is_byte; lia)))
    as (v0 & Hv0 & Hx0).
  assert (Hs : CURRENT_SBOX st <> []).
  { intros Hnil. apply getitem_elem in Hv0. rewrite Hnil in Hv0. inversion Hv0. }
  assert (Hi : CURRENT_INV_SBOX st <> []).
  { intros Hnil. apply getitem_elem in Hx0. rewrite Hnil in Hx0. inversion Hx0. }
  exists (str_join (lit " ") (map format_02X out)). split.
  - unfold encrypt_test. rewrite (ensure_tables_set CURRENT_SBOX st Hs).
    rewrite Henc. cbn [mbind res_bind]. rewrite Hout. reflexivity.
  - unfold decrypt_test. rewrite (ensure_tables_set CURRENT_INV_SBOX st Hi).
    rewrite (hex_output_parses unicode_decimal out Hout_bytes).
    cbn [mbind res_bind]. rewrite Hback. cbn [mbind res_bind].
    rewrite (bytes_of_bytes bs Hbs). cbn [mbind res_bind]. rewrite Hdec.
    reflexivity.
Qed.

Lemma default_sbox_bytes : Forall is_byte (CURRENT_SBOX default_tables).
Proof. apply (bool_decide_unpack _). vm_compute. reflexivity. Qed.

Lemma decrypt_test_inverts_encrypt_test_witness :
  exists hex_output,
    encrypt_test default_tables [0x48; 0xE9; 0x20AC; 0x1F600]
      = (Return hex_output, default_tables) /\
    decrypt_test no_foreign_digits default_tables hex_output
      = (Return [0x48; 0xE9; 0x20AC; 0x1F600], default_tables).
Proof.
  apply (decrypt_test_inverts_encrypt_test no_foreign_digits default_tables).
  - exact default_sbox_bytes.
  - exact (all_bytes _ default_encode_decode_all).
  - each_entry; unfold scalar_value; lia.
Defined.

(** ** What can go wrong in the handlers *)

Lemma getitem_in_range {A : Type} (l : list A) (i : Z) :
  - Z.of_nat (length l) <= i < Z.of_nat (length l) ->
  exists a, getitem l i = Ok a.
Proof.
  intros Hi. destruct (Z.lt_ge_cases i 0) as [Hneg|Hpos].
  - unfold getitem, norm_index.
    destruct ((0 <=? i) && (i <? Z.of_nat (length l))) eqn:H1; [lia|].
    destruct ((- Z.of_nat (length l) <=? i) && (i <? 0)) eqn:H2; [|lia].
    destruct (lookup_lt_is_Some_2 l (Z.to_nat (Z.of_nat (length l) + i))) as [a ->];
      [lia|].
    exists a. reflexivity.
  - destruct (getitem_nonneg l i) as (a & _ & Ha); [lia|]. exists a. exact Ha.
Qed.

Lemma getitem_outside {A : Type} (l : list A) (i : Z) :
  i < - Z.of_nat (length l) \/ Z.of_nat (length l) <= i ->
  getitem l i = Raise IndexError.
Proof.
  intros Hi. unfold getitem, norm_index.
  destruct ((0 <=? i) && (i <? Z.of_nat (length l))) eqn:H1; [lia|].
  destruct ((- Z.of_nat (length l) <=? i) && (i <? 0)) eqn:H2; [lia|].
  reflexivity.
Qed.

Lemma getitem_raises {A : Type} (l : list A) (i : Z) (e : exn) :
  getitem l i = Raise e -> e = IndexError.
Proof.
  unfold getitem. destruct (norm_index l i) as [k|]; [|intros [= <-]; reflexivity].
  destruct (l !! k); [discriminate | intros [= <-]; reflexivity].
Qed.

Lemma substitute_raises (table data : list Z) (e : exn) :
  substitute table data = Raise e -> e = IndexError.
Proof.
  induction data as [|b data IH]; cbn [substitute]; [discriminate|].
  destruct (getitem table b) as [v|e'] eqn:Hv.
  - cbn [mbind res_bind]. destruct (substitute table data) as [vs|e']; [discriminate|].
    intros [= <-]. apply IH. reflexivity.
  - intros [= <-]. eapply getitem_raises, Hv.
Qed.

Lemma substitute_in_range (table data : list Z) :
  Forall (fun v => - Z.of_nat (length table) <= v < Z.of_nat (length table)) data ->
  exists out, substitute table data = Ok out /\ Forall (fun v => v ∈ table) out.
Proof.
  induction 1 as [|b data Hb _ IH].
  - exists []. split; [reflexivity | constructor].
  - destruct IH as (out & Hout & Hin).
    destruct (getitem_in_range table b Hb) as [v Hv].
    exists (v :: out). cbn [substitute]. rewrite Hv, Hout. split; [reflexivity|].
    constructor; [eapply getitem_elem, Hv | exact Hin].
Qed.

Lemma substitute_out_of_range (table data : list Z) (v : Z) :
  v ∈ data ->
  v < - Z.of_nat (length table) \/ Z.of_nat (length table) <= v ->
  substitute table data = Raise IndexError.
Proof.
  intros Hin Hv. destruct (substitute table data) as [out|e] eqn:Hsub.
  - exfalso. apply substitute_returns in Hsub.
    apply list_elem_of_lookup in Hin as [i Hi].
    destruct (Forall2_lookup_l _ _ _ _ _ Hsub Hi) as (w & _ & Hw).
    rewrite (getitem_outside table v Hv) in Hw. discriminate.
  - f_equal. eapply substitute_raises, Hsub.
Qed.

Lemma int16_all_raises (unicode_decimal : Z -> option Z) (hex_vals : list str) (e : exn) :
  int16_all unicode_decimal hex_vals = Raise e -> e = ValueError.
Proof.
  induction hex_vals as [|h rest IH]; cbn [int16_all]; [discriminate|].
  destruct (int16 unicode_decimal h); [|intros [= <-]; reflexivity].
  destruct (int16_all unicode_decimal rest) as [vs|e']; [discriminate|].
  intros [= <-]. apply IH. reflexivity.
Qed.

Lemma bytes_raises (l : list Z) (e : exn) : bytes l = Raise e -> e = ValueError.
Proof.
  unfold bytes. destruct (forallb _ l); [discriminate | intros [= <-]; reflexivity].
Qed.

Lemma utf8_decode_raises_bounded (n : nat) :
  forall (bs : list Z) (e : exn),
    (length bs <= n)%nat -> utf8_decode bs = Raise e -> e = UnicodeDecodeError.
Proof.
  induction n as [|n IH]; intros bs e Hlen H.
  - destruct bs; [discriminate | cbn in Hlen; lia].
  - destruct bs as [|b0 r1]; [discriminate|].
    cbn [length] in Hlen. cbn [utf8_decode] in H.
    destruct (between 0 127 b0).
    { destruct (utf8_decode r1) as [s|e'] eqn:Hr; [discriminate|].
      injection H as <-. apply (IH r1); [lia | exact Hr]. }
    destruct (between 194 223 b0).
    { destruct r1 as [|b1 r2]; [congruence|]. cbn [length] in Hlen.
      destruct (continuation b1); [|congruence].
      destruct (utf8_decode r2) as [s|e'] eqn:Hr; [discriminate|].
      injection H as <-. apply (IH r2); [lia | exact Hr]. }
    destruct (between 224 239 b0).
    { destruct r1 as [|b1 [|b2 r3]]; try congruence. cbn [length] in Hlen.
      destruct (between _ _ b1 && continuation b2); [|congruence].
      destruct (utf8_decode r3) as [s|e'] eqn:Hr; [discriminate|].
      injection H as <-. apply (IH r3); [lia | exact Hr]. }
    destruct (between 240 244 b0); [|congruence].
    destruct r1 as [|b1 [|b2 [|b3 r4]]]; try congruence. cbn [length] in Hlen.
    destruct (between _ _ b1 && continuation b2 && continuation b3); [|congruence].
    destruct (utf8_decode r4) as [s|e'] eqn:Hr; [discriminate|].
    injection H as <-. apply (IH r4); [lia | exact Hr].
Qed.

Lemma utf8_decode_raises (bs : list Z) (e : exn) :
  utf8_decode bs = Raise e -> e = UnicodeDecodeError.
Proof. apply (utf8_decode_raises_bounded (length bs)). lia. Qed.

(** In a state of the right shape the inverse table that
    [decrypt_test] reads has 256 entries. *)
Lemma ensure_inverse_ready (st : tables) :
  tables_shape st ->
  exists st',
    ensure_tables CURRENT_INV_SBOX st = (st', None) /\
    length (CURRENT_INV_SBOX st') = 256%nat.
Proof.
  intros Hshape. destruct (ensure_tables_cases CURRENT_INV_SBOX st) as [[_ ->]|[Hne ->]].
  - exists default_tables. split; reflexivity.
  - exists st. split; [reflexivity|].
    destruct Hshape as [[_ Hnil]|[_ Hlen]]; [contradiction | exact Hlen].
Qed.

(** X11. In every state the service can be in, [decrypt_test] answers
    500 "Decryption Failed" exactly when every token is accepted by
    [int(h, 16)] and one of the values is below -256 or above 255. *)
Theorem decrypt_test_500_iff
    (unicode_decimal : Z -> option Z) (st : tables) (ciphertext : str) :
  tables_shape st ->
  fst (decrypt_test unicode_decimal st ciphertext)
    = HTTPException 500 (Text "Decryption Failed")
  <->
  exists cipher_bytes,
    int16_all unicode_decimal (str_split (str_strip ciphertext)) = Ok cipher_bytes /\
    exists v, v ∈ cipher_bytes /\ (v < -256 \/ 255 < v).
Proof.
  intros Hshape. unfold decrypt_test.
  destruct (ensure_inverse_ready st Hshape) as (st' & -> & Hlen).
  destruct (int16_all unicode_decimal (str_split (str_strip ciphertext)))
    as [vs|e] eqn:Hparse; cbn [mbind res_bind].
  - destruct (decide (Forall (fun v => -256 <= v < 256) vs)) as [Hin|Hout].
    + destruct (substitute_in_range (CURRENT_INV_SBOX st') vs) as (out & -> & _).
      { rewrite Hlen. exact Hin. }
      cbn [mbind res_bind]. split.
      * destruct (bytes out) as [raw|e] eqn:Hraw; cbn [mbind res_bind].
        -- destruct (utf8_decode raw) as [s|e] eqn:Hdec; [discriminate|].
           rewrite (utf8_decode_raises raw e Hdec). discriminate.
        -- rewrite (bytes_raises out e Hraw). discriminate.
      * intros (vs' & [= <-] & v & Hv & Hrange). exfalso.
        rewrite Forall_forall in Hin. specialize (Hin v Hv). lia.
    + apply not_Forall_Exists in Hout; [|intros v; apply _].
      apply Exists_exists in Hout as (v & Hv & Hrange). unfold compose in Hrange.
      rewrite (substitute_out_of_range (CURRENT_INV_SBOX st') vs v Hv)
        by (rewrite Hlen; change (Z.of_nat 256) with 256; lia).
      split; [|reflexivity]. intros _. exists vs. split; [reflexivity|].
      exists v. split; [exact Hv | lia].
  - rewrite (int16_all_raises unicode_decimal _ e Hparse). split; [discriminate|].
    intros (vs & Hvs & _). discriminate.
Qed.

(** X12. Blank input: [encrypt_test] of the empty text returns the
    empty string, and [decrypt_test] of a ciphertext made only of
    whitespace returns the empty text, whatever the tables hold. *)
Theorem blank_input_gives_empty_output
    (unicode_decimal : Z -> option Z) (st : tables) (ciphertext : str) :
  Forall (fun c => isspace c = true) ciphertext ->
  fst (encrypt_test st []) = Return [] /\
  fst (decrypt_test unicode_decimal st ciphertext) = Return [].
Proof.
  intros Hblank. split.
  - unfold encrypt_test.
    destruct (ensure_tables_ready CURRENT_SBOX st) as [st' ->]. reflexivity.
  - unfold decrypt_test.
    destruct (ensure_tables_ready CURRENT_INV_SBOX st) as [st' ->].
    rewrite str_split_strip.
    replace (str_split ciphertext) with (@nil str); [reflexivity|].
    unfold str_split. induction Hblank as [|c s Hc _ IH]; [reflexivity|].
    cbn [str_split_from]. rewrite Hc. exact IH.
Qed.

Lemma blank_input_gives_empty_output_witness :
  fst (encrypt_test initial_tables []) = Return [] /\
  fst (decrypt_test no_foreign_digits initial_tables [32; 9; 10; 0xA0]) = Return [].
Proof.
  apply (blank_input_gives_empty_output no_foreign_digits initial_tables).
  each_entry; reflexivity.
Defined.

Lemma decrypt_test_500_iff_witness :
  fst (decrypt_test no_foreign_digits default_tables (lit "48 -101"))
  = HTTPException 500 (Text "Decryption Failed").
Proof.
  apply (decrypt_test_500_iff no_foreign_digits default_tables (lit "48 -101")).
  - apply default_tables_shape.
  - exists [0x48; -257]. split; [reflexivity|].
    exists (-257). split; [|lia].
    apply list_elem_of_further, list_elem_of_here.
Defined.

(** ** Text that cannot be encoded *)

Lemma utf8_encode_char_raises (c : Z) (e : exn) :
  utf8_encode_char c = Raise e -> e = UnicodeEncodeError /\ 0xD800 <= c <= 0xDFFF.
Proof.
  unfold utf8_encode_char.
  destruct (c <? 128); [discriminate|].
  destruct (c <? 2048); [discriminate|].
  destruct (between 55296 57343 c) eqn:Hs.
  - intros [= <-]. split; [reflexivity|]. unfold between in Hs. lia.
  - destruct (c <? 65536); discriminate.
Qed.

Lemma utf8_encode_char_surrogate (c : Z) :
  0xD800 <= c <= 0xDFFF -> utf8_encode_char c = Raise UnicodeEncodeError.
Proof.
  intros Hc. unfold utf8_encode_char.
  destruct (c <? 128) eqn:H1; [lia|].
  destruct (c <? 2048) eqn:H2; [lia|].
  destruct (between 55296 57343 c) eqn:Hs; [reflexivity|].
  unfold between in Hs. lia.
Qed.

Lemma utf8_encode_surrogate (text : str) (c : Z) :
  c ∈ text -> 0xD800 <= c <= 0xDFFF -> utf8_encode text = Raise UnicodeEncodeError.
Proof.
  intros Hin Hc. induction Hin as [c rest | c d rest Hin IH]; cbn [utf8_encode].
  - rewrite (utf8_encode_char_surrogate c Hc). reflexivity.
  - destruct (utf8_encode_char d) as [bs|e] eqn:Hd.
    + rewrite (IH Hc). reflexivity.
    + destruct (utf8_encode_char_raises d e Hd) as [-> _]. reflexivity.
Qed.

(** In a state of the right shape the table that [encrypt_test] reads
    has 256 entries. *)
Lemma ensure_sbox_ready (st : tables) :
  tables_shape st ->
  exists st',
    ensure_tables CURRENT_SBOX st = (st', None) /\
    length (CURRENT_SBOX st') = 256%nat.
Proof.
  intros Hshape. destruct (ensure_tables_cases CURRENT_SBOX st) as [[_ ->]|[Hne ->]].
  - exists default_tables. split; reflexivity.
  - exists st. split; [reflexivity|].
    destruct Hshape as [[Hnil _]|[Hlen _]]; [contradiction | exact Hlen].
Qed.

(** X13. In every state the service can be in, [encrypt_test] of a
    text of code points fails only on surrogates: with a surrogate in
    the text it answers 500 with the message of [UnicodeEncodeError];
    without one it returns the hexadecimal string, with no
    [IndexError] from the table. *)
Theorem encrypt_test_fails_only_on_surrogates (st : tables) (text : str) :
  tables_shape st ->
  Forall (fun c => 0 <= c <= 0x10FFFF) text ->
  ((exists c, c ∈ text /\ 0xD800 <= c <= 0xDFFF) /\
   fst (encrypt_test st text) = HTTPException 500 (StrOf UnicodeEncodeError))
  \/
  (Forall scalar_value text /\
   exists hex_output, fst (encrypt_test st text) = Return hex_output).
Proof.
  intros Hshape Htext. unfold encrypt_test.
  destruct (ensure_sbox_ready st Hshape) as (st' & -> & Hlen).
  destruct (decide (Forall (fun c => ~ (0xD800 <= c <= 0xDFFF)) text)) as [Hok|Hbad].
  - right.
    assert (Hscalar : Forall scalar_value text).
    { rewrite Forall_forall in Htext, Hok. apply Forall_forall. intros c Hc.
      split; [apply Htext, Hc | apply Hok, Hc]. }
    split; [exact Hscalar|].
    destruct (utf8_roundtrip text Hscalar) as (bs & -> & Hbs & _).
    cbn [mbind res_bind].
    destruct (substitute_total (CURRENT_SBOX st') bs Hlen Hbs) as (out & -> & _).
    eexists. reflexivity.
  - left. apply not_Forall_Exists in Hbad; [|intros c; apply _].
    apply Exists_exists in Hbad as (c & Hc & Hsur). unfold compose in Hsur.
    assert (Hc' : 0xD800 <= c <= 0xDFFF) by lia.
    split; [exists c; split; assumption|].
    rewrite (utf8_encode_surrogate text c Hc Hc'). reflexivity.
Qed.

Lemma encrypt_test_fails_only_on_surrogates_witness :
  fst (encrypt_test initial_tables [0x48; 0xD83D])
  = HTTPException 500 (StrOf UnicodeEncodeError).
Proof.
  assert (Hshape : tables_shape initial_tables) by (left; split; reflexivity).
  assert (Htext : Forall (fun c => 0 <= c <= 0x10FFFF) [0x48; 0xD83D])
    by (each_entry; lia).
  destruct (encrypt_test_fails_only_on_surrogates initial_tables [0x48; 0xD83D]
              Hshape Htext) as [[_ H]|[Hscalar _]]; [exact H|].
  exfalso. apply Forall_cons_1 in Hscalar as [_ Hrest].
  apply Forall_cons_1 in Hrest as [[_ Hnot] _]. apply Hnot. lia.
Defined.

(** ** Negative token values *)

Lemma getitem_from_end {A : Type} (l : list A) (i : Z) :
  0 <= i < Z.of_nat (length l) ->
  getitem l (i - Z.of_nat (length l)) = getitem l i.
Proof.
  intros Hi. unfold getitem at 1. unfold norm_index.
  destruct ((0 <=? i - Z.of_nat (length l))
            && (i - Z.of_nat (length l) <? Z.of_nat (length l))) eqn:H1; [lia|].
  destruct ((- Z.of_nat (length l) <=? i - Z.of_nat (length l))
            && (i - Z.of_nat (length l) <? 0)) eqn:H2; [|lia].
  replace (Z.of_nat (length l) + (i - Z.of_nat (length l))) with i by lia.
  destruct (getitem_nonneg l i Hi) as (a & -> & ->). reflexivity.
Qed.

Lemma substitute_from_end (table data : list Z) :
  length table = 256%nat -> Forall is_byte data ->
  substitute table (map (fun v => v - 256) data) = substitute table data.
Proof.
  intros Hlen. induction 1 as [|b data Hb _ IH]; [reflexivity|].
  cbn [map substitute]. rewrite IH.
  replace (b - 256) with (b - Z.of_nat (length table)) by (rewrite Hlen; reflexivity).
  rewrite getitem_from_end by (rewrite Hlen; unfold is_byte in Hb; lia).
  reflexivity.
Qed.

(** X14. A token whose value lies in -256..-1 is not refused: the
    inverse table is read from its end, so a ciphertext with the
    values [v - 256] gets the same reply as the one with the byte
    values [v]. *)
Theorem decrypt_test_negative_values
    (unicode_decimal : Z -> option Z) (st : tables)
    (ciphertext ciphertext' : str) (cipher_bytes : list Z) :
  tables_shape st ->
  int16_all unicode_decimal (str_split (str_strip ciphertext)) = Ok cipher_bytes ->
  Forall is_byte cipher_bytes ->
  int16_all unicode_decimal (str_split (str_strip ciphertext'))
    = Ok (map (fun v => v - 256) cipher_bytes) ->
  decrypt_test unicode_decimal st ciphertext'
  = decrypt_test unicode_decimal st ciphertext.
Proof.
  intros Hshape Hparse Hbytes Hparse'. unfold decrypt_test.
  destruct (ensure_inverse_ready st Hshape) as (st' & -> & Hlen).
  rewrite Hparse, Hparse'. cbn [mbind res_bind].
  rewrite (substitute_from_end _ _ Hlen Hbytes). reflexivity.
Qed.

Lemma decrypt_test_negative_values_witness :
  decrypt_test no_foreign_digits default_tables (lit "-A2 -05")
  = decrypt_test no_foreign_digits default_tables (lit "5E FB").
Proof.
  apply (decrypt_test_negative_values no_foreign_digits default_tables
           (lit "5E FB") (lit "-A2 -05") [0x5E; 0xFB]).
  - apply default_tables_shape.
  - reflexivity.
  - each_entry; unfold is_byte; lia.
  - reflexivity.
Defined.

(** ** The multiplication as a field operation *)

Lemma gf_mult_symmetric_all :
  forallb (fun a => forallb (gf_mult_symmetric a) (range 256)) (range 256) = true.
Proof. vm_cast_no_check (eq_refl true). Qed.

(** X15. On bytes [gf_mult] is commutative and has no zero divisors:
    a product is 0 exactly when one of the factors is. *)
Theorem gf_mult_comm_no_zero_divisors (a b : Z) :
  is_byte a -> is_byte b ->
  gf_mult a b = gf_mult b a /\
  (gf_mult a b = 0 <-> a = 0 \/ b = 0).
Proof.
  intros Ha Hb.
  pose proof (all_bytes_bool _ gf_mult_symmetric_all a Ha) as Hrow.
  pose proof (all_bytes_bool _ Hrow b Hb) as Hab.
  unfold gf_mult_symmetric in Hab. apply andb_prop in Hab as [Hcomm Hzero].
  apply Z.eqb_eq in Hcomm. apply eqb_prop in Hzero.
  split; [exact Hcomm|]. split.
  - intros H0. apply Z.eqb_eq in H0. rewrite H0 in Hzero. symmetry in Hzero.
    apply orb_prop in Hzero as [H|H]; apply Z.eqb_eq in H; [left | right]; exact H.
  - intros H0. apply Z.eqb_eq. rewrite Hzero.
    destruct H0 as [-> | ->]; [reflexivity | apply orb_true_r].
Qed.

Lemma gf_mult_comm_no_zero_divisors_witness :
  gf_mult 0x57 0x83 = gf_mult 0x83 0x57 /\
  (gf_mult 0x57 0x83 = 0 <-> 0x57 = 0 \/ 0x83 = 0).
Proof. apply (gf_mult_comm_no_zero_divisors 0x57 0x83); unfold is_byte; lia. Defined.

Lemma gf_mult_comm (a b : Z) : is_byte a -> is_byte b -> gf_mult a b = gf_mult b a.
Proof.
  intros Ha Hb.
  pose proof (all_bytes_bool _ gf_mult_symmetric_all a Ha) as Hrow.
  pose proof (all_bytes_bool _ Hrow b Hb) as Hab.
  unfold gf_mult_symmetric in Hab. apply andb_prop in Hab as [Hcomm _].
  apply Z.eqb_eq, Hcomm.
Qed.

Lemma gf_inverse_only_all : forallb gf_inverse_only (range 256) = true.
Proof. vm_cast_no_check (eq_refl true). Qed.

Lemma gf_inverse_search_elem (byte : Z) (cands : list Z) (i : Z) :
  gf_inverse_search byte cands = Some i -> i ∈ cands.
Proof.
  induction cands as [|c cands IH]; cbn [gf_inverse_search]; [discriminate|].
  destruct (gf_mult byte c =? 1).
  - intros [= <-]. apply list_elem_of_here.
  - intros H. apply list_elem_of_further, IH, H.
Qed.

(** Whatever the argument, [gf_inverse] returns a byte. *)
Lemma gf_inverse_byte (x : Z) : is_byte (gf_inverse x).
Proof.
  unfold gf_inverse. destruct (x =? 0); [unfold is_byte; lia|].
  destruct (gf_inverse_search x (range 256)) as [i|] eqn:Hi; [|unfold is_byte; lia].
  apply gf_inverse_search_elem, range_elem in Hi. unfold is_byte. lia.
Qed.

(** X16. For a byte [a] other than 0, [gf_inverse a] is the only
    byte whose product with [a] is 1; it is not 0, and searching the
    inverse of the inverse gives [a] back.  For any integer argument
    the result is a byte. *)
Theorem gf_inverse_is_the_inverse (a b : Z) :
  is_byte a -> a <> 0 -> is_byte b ->
  (gf_mult a b = 1 <-> b = gf_inverse a) /\
  gf_inverse (gf_inverse a) = a /\
  gf_inverse a <> 0 /\
  forall x : Z, is_byte (gf_inverse x).
Proof.
  intros Ha Hnz Hb.
  pose proof (all_bytes_bool _ gf_inverse_only_all a Ha) as H.
  unfold gf_inverse_only in H. cbv zeta in H.
  apply orb_prop in H as [H|H]; [apply Z.eqb_eq in H; contradiction|].
  apply andb_prop in H as [H Hall]. apply andb_prop in H as [Hinv Hne].
  apply Z.eqb_eq in Hinv. apply negb_true_iff, Z.eqb_neq in Hne.
  pose proof (all_bytes_bool _ Hall b Hb) as Hb1. cbv beta in Hb1.
  apply eqb_prop in Hb1.
  split; [|split; [exact Hinv | split; [exact Hne | exact gf_inverse_byte]]].
  split; intros H1.
  - apply Z.eqb_eq. rewrite <- Hb1. apply Z.eqb_eq, H1.
  - apply Z.eqb_eq. rewrite Hb1. apply Z.eqb_eq, H1.
Qed.

Lemma gf_inverse_is_the_inverse_witness :
  (gf_mult 0x53 0xCA = 1 <-> 0xCA = gf_inverse 0x53) /\
  gf_inverse (gf_inverse 0x53) = 0x53.
Proof.
  destruct (gf_inverse_is_the_inverse 0x53 0xCA) as (H1 & H2 & _);
    [unfold is_byte; lia | lia | unfold is_byte; lia |].
  split; [exact H1 | exact H2].
Defined.

(** Proves an equation between XORs of the same integers bit by bit. *)
Ltac xor_bits :=
  apply Z.bits_inj'; intros ? _;
  repeat (rewrite Z.lxor_spec || rewrite Z.land_spec);
  repeat match goal with
         | |- context [Z.testbit ?x ?n] => destruct (Z.testbit x n)
         end;
  reflexivity.

Lemma land_lxor_distr (a b c : Z) :
  Z.land (Z.lxor a b) c = Z.lxor (Z.land a c) (Z.land b c).
Proof. xor_bits. Qed.

Lemma truthy_bit0 (x : Z) : truthy (Z.land x 1) = Z.testbit x 0.
Proof. rewrite <- (truthy_low_bit x 0), Z.shiftr_0_r by lia. reflexivity. Qed.

Lemma gf_mult_step_xor (a b c p q : Z) :
  gf_mult_step (a, Z.lxor b c, Z.lxor p q)
  = let '(a1, b1, p1) := gf_mult_step (a, b, p) in
    let '(_, c1, q1) := gf_mult_step (a, c, q) in
    (a1, Z.lxor b1 c1, Z.lxor p1 q1).
Proof.
  unfold gf_mult_step. rewrite Z.shiftr_lxor, !truthy_bit0, Z.lxor_spec.
  f_equal. destruct (Z.testbit b 0), (Z.testbit c 0); cbn [xorb]; xor_bits.
Qed.

Lemma gf_mult_loop_xor (n : nat) :
  forall a b c p q,
    gf_mult_loop n (a, Z.lxor b c, Z.lxor p q)
    = let '(a1, b1, p1) := gf_mult_loop n (a, b, p) in
      let '(_, c1, q1) := gf_mult_loop n (a, c, q) in
      (a1, Z.lxor b1 c1, Z.lxor p1 q1).
Proof.
  induction n as [|n IH]; intros a b c p q; [reflexivity|].
  cbn [gf_mult_loop]. rewrite gf_mult_step_xor.
  destruct (gf_mult_step (a, b, p)) as [[a1 b1] p1] eqn:Hb.
  destruct (gf_mult_step (a, c, q)) as [[a2 c1] q1] eqn:Hc.
  assert (Ha : a2 = a1).
  { unfold gf_mult_step in Hb, Hc. congruence. }
  subst a2. apply IH.
Qed.

Lemma gf_mult_xor_r (a b c : Z) :
  gf_mult a (Z.lxor b c) = Z.lxor (gf_mult a b) (gf_mult a c).
Proof.
  unfold gf_mult. rewrite <- (Z.lxor_0_l 0) at 1. rewrite gf_mult_loop_xor.
  destruct (gf_mult_loop 8 (a, b, 0)) as [[a1 b1] p1].
  destruct (gf_mult_loop 8 (a, c, 0)) as [[a2 c1] q1].
  apply land_lxor_distr.
Qed.

(** X17. [gf_mult] distributes over XOR: in its second argument for
    all integers, in its first argument for bytes. *)
Theorem gf_mult_distributes_over_xor (a b c : Z) :
  gf_mult a (Z.lxor b c) = Z.lxor (gf_mult a b) (gf_mult a c) /\
  (is_byte a -> is_byte b -> is_byte c ->
   gf_mult (Z.lxor a b) c = Z.lxor (gf_mult a c) (gf_mult b c)).
Proof.
  split; [apply gf_mult_xor_r|].
  intros Ha Hb Hc.
  rewrite (gf_mult_comm (Z.lxor a b) c) by (try apply lxor_byte; assumption).
  rewrite gf_mult_xor_r, (gf_mult_comm c a), (gf_mult_comm c b) by assumption.
  reflexivity.
Qed.

Lemma gf_mult_distributes_over_xor_witness :
  gf_mult (Z.lxor 0x57 0x83) 0x13 = Z.lxor (gf_mult 0x57 0x13) (gf_mult 0x83 0x13).
Proof.
  apply (gf_mult_distributes_over_xor 0x57 0x83 0x13); unfold is_byte; lia.
Defined.

Lemma gf_mult_assoc_power_all :
  forallb (fun a => forallb (gf_mult_assoc_power a) (range 256)) (range 256) = true.
Proof. vm_cast_no_check (eq_refl true). Qed.

Lemma gf_mult_assoc_term (a b c k : Z) :
  is_byte a -> is_byte b -> 0 <= k < 8 ->
  let t := if Z.testbit c k then Z.shiftl 1 k else 0 in
  gf_mult (gf_mult a b) t = gf_mult a (gf_mult b t).
Proof.
  intros Ha Hb Hk. cbv zeta. destruct (Z.testbit c k).
  - pose proof (all_bytes_bool _ gf_mult_assoc_power_all a Ha) as Hrow.
    pose proof (all_bytes_bool _ Hrow b Hb) as Hab.
    unfold gf_mult_assoc_power in Hab. cbv zeta in Hab.
    rewrite forallb_forall in Hab. apply Z.eqb_eq, Hab.
    apply list_elem_of_In, range_elem. lia.
  - rewrite !gf_mult_zero. reflexivity.
Qed.

Lemma gf_mult_assoc_terms (a b c : Z) (ks : list Z) :
  is_byte a -> is_byte b -> Forall (fun k => 0 <= k < 8) ks ->
  gf_mult (gf_mult a b) (bit_terms c ks) = gf_mult a (gf_mult b (bit_terms c ks)).
Proof.
  intros Ha Hb. induction 1 as [|k ks Hk _ IH]; cbn [bit_terms].
  - rewrite !gf_mult_zero. reflexivity.
  - rewrite !gf_mult_xor_r, IH.
    rewrite (gf_mult_assoc_term a b c k Ha Hb Hk). reflexivity.
Qed.

Lemma byte_bit_terms :
  Forall (fun c => bit_terms c (range 8) = c) (range 256).
Proof. apply (bool_decide_unpack _). vm_compute. reflexivity. Qed.

(** X18. On bytes [gf_mult] is associative. *)
Theorem gf_mult_assoc (a b c : Z) :
  is_byte a -> is_byte b -> is_byte c ->
  gf_mult (gf_mult a b) c = gf_mult a (gf_mult b c).
Proof.
  intros Ha Hb Hc.
  rewrite <- (all_bytes _ byte_bit_terms c Hc).
  apply gf_mult_assoc_terms; [exact Ha | exact Hb |].
  apply Forall_forall. intros k Hk. apply range_elem in Hk. lia.
Qed.

Lemma gf_mult_assoc_witness :
  gf_mult (gf_mult 0x57 0x83) 0x13 = gf_mult 0x57 (gf_mult 0x83 0x13).
Proof. apply (gf_mult_assoc 0x57 0x83 0x13); unfold is_byte; lia. Defined.

(** ** Blanks and letter case in the ciphertext *)

(** X19. The reply of [decrypt_test] depends on the ciphertext only
    through its sequence of tokens: blanks at the ends, and the number
    and kind of blanks between tokens, make no difference. *)
Theorem decrypt_test_depends_on_tokens
    (unicode_decimal : Z -> option Z) (st : tables) (ciphertext ciphertext' : str) :
  str_split ciphertext' = str_split ciphertext ->
  decrypt_test unicode_decimal st ciphertext'
  = decrypt_test unicode_decimal st ciphertext.
Proof.
  intros Htokens. unfold decrypt_test.
  rewrite !str_split_strip, Htokens. reflexivity.
Qed.

Lemma decrypt_test_depends_on_tokens_witness :
  decrypt_test no_foreign_digits default_tables [9; 53; 69; 10; 10; 70; 66; 0x3000]
  = decrypt_test no_foreign_digits default_tables (lit "5E FB").
Proof.
  apply (decrypt_test_depends_on_tokens no_foreign_digits default_tables).
  reflexivity.
Defined.

Lemma isspace_not_letter (c : Z) : isspace c = true -> ~ (65 <= c <= 122).
Proof.
  unfold isspace, between. intros H.
  rewrite !orb_true_iff, !andb_true_iff, !Z.leb_le, !Z.eqb_eq in H. lia.
Qed.

Lemma isspace_lower (c : Z) : isspace (ascii_lower c) = isspace c.
Proof.
  unfold ascii_lower. destruct (between 65 90 c) eqn:Hc; [|reflexivity].
  unfold between in Hc. apply andb_prop in Hc as [H1 H2].
  apply Z.leb_le in H1, H2.
  destruct (isspace (c + 32)) eqn:Ha.
  - apply isspace_not_letter in Ha. lia.
  - destruct (isspace c) eqn:Hb; [|reflexivity].
    apply isspace_not_letter in Hb. lia.
Qed.

Lemma str_lstrip_lower (s : str) :
  str_lstrip (map ascii_lower s) = map ascii_lower (str_lstrip s).
Proof.
  induction s as [|c s IH]; [reflexivity|].
  cbn [map str_lstrip]. rewrite isspace_lower.
  destruct (isspace c); [exact IH | reflexivity].
Qed.

Lemma str_split_from_lower (s : str) :
  forall cur,
    str_split_from (map ascii_lower s) (map ascii_lower cur)
    = map (map ascii_lower) (str_split_from s cur).
Proof.
  induction s as [|c s IH]; intros cur; cbn [map str_split_from].
  - destruct cur; reflexivity.
  - rewrite isspace_lower. destruct (isspace c).
    + destruct cur as [|d cur]; cbn [map]; [apply (IH [])|].
      f_equal. apply (IH []).
    + rewrite <- IH. f_equal. rewrite map_app. reflexivity.
Qed.

Lemma str_split_lower (s : str) :
  str_split (map ascii_lower s) = map (map ascii_lower) (str_split s).
Proof. apply (str_split_from_lower s []). Qed.

Section CaseInsensitive.

Variable unicode_decimal : Z -> option Z.

Lemma int_to_ascii_lower (c : Z) :
  same_letter (int_to_ascii unicode_decimal (ascii_lower c))
              (int_to_ascii unicode_decimal c).
Proof.
  unfold same_letter, int_to_ascii, ascii_lower, between.
  destruct (Z.leb_spec 65 c), (Z.leb_spec c 90); cbn [andb]; try reflexivity.
  destruct (Z.ltb_spec (c + 32) 128), (Z.ltb_spec c 128); try lia.
  destruct (Z.leb_spec 65 (c + 32)), (Z.leb_spec (c + 32) 90); cbn [andb]; try lia.
  destruct (Z.leb_spec 65 c), (Z.leb_spec c 90); cbn [andb]; lia.
Qed.

Lemma same_letter_eqb (c d k : Z) :
  same_letter c d -> ~ (65 <= k <= 90) -> ~ (97 <= k <= 122) ->
  (c =? k) = (d =? k).
Proof.
  unfold same_letter, ascii_lower, between. intros H Hk1 Hk2.
  destruct (Z.leb_spec 65 c), (Z.leb_spec c 90), (Z.leb_spec 65 d), (Z.leb_spec d 90);
    cbn [andb] in H;
    destruct (Z.eqb_spec c k), (Z.eqb_spec d k); try reflexivity; lia.
Qed.

Lemma same_letter_x (c d : Z) :
  same_letter c d -> (c =? 120) || (c =? 88) = (d =? 120) || (d =? 88).
Proof.
  unfold same_letter, ascii_lower, between. intros H.
  destruct (Z.leb_spec 65 c), (Z.leb_spec c 90), (Z.leb_spec 65 d), (Z.leb_spec d 90);
    cbn [andb] in H;
    destruct (Z.eqb_spec c 120), (Z.eqb_spec c 88),
      (Z.eqb_spec d 120), (Z.eqb_spec d 88); try reflexivity; lia.
Qed.

Lemma same_letter_blank (c d : Z) :
  same_letter c d -> c_isspace c = c_isspace d.
Proof.
  intros H. unfold c_isspace, between.
  destruct (Z.leb_spec 9 c), (Z.leb_spec c 13), (Z.leb_spec 9 d), (Z.leb_spec d 13);
    cbn [andb orb]; try reflexivity;
    try (apply same_letter_eqb; [exact H | lia | lia]);
    unfold same_letter, ascii_lower, between in H;
    destruct (Z.leb_spec 65 c), (Z.leb_spec c 90), (Z.leb_spec 65 d), (Z.leb_spec d 90);
    cbn [andb] in H; lia.
Qed.

Lemma same_letter_digit (c d : Z) :
  same_letter c d -> digit_value c = digit_value d.
Proof.
  unfold same_letter, ascii_lower, digit_value, between. intros H.
  destruct (Z.leb_spec 65 c), (Z.leb_spec c 90), (Z.leb_spec 65 d), (Z.leb_spec d 90);
    cbn [andb] in H;
    destruct (Z.leb_spec 48 c), (Z.leb_spec c 57), (Z.leb_spec 48 d), (Z.leb_spec d 57);
    cbn [andb]; try lia; try (f_equal; lia);
    destruct (Z.leb_spec 97 c), (Z.leb_spec c 102), (Z.leb_spec 97 d), (Z.leb_spec d 102);
    cbn [andb]; try lia; try (f_equal; lia);
    destruct (Z.leb_spec c 70), (Z.leb_spec d 70);
    cbn [andb]; try lia; try (f_equal; lia); reflexivity.
Qed.

Lemma skip_blanks_same (s t : str) :
  Forall2 same_letter s t -> Forall2 same_letter (skip_blanks s) (skip_blanks t).
Proof.
  induction 1 as [|c d s t Hcd Hst IH]; [constructor|].
  cbn [skip_blanks]. rewrite (same_letter_blank c d Hcd).
  destruct (c_isspace d); [exact IH | constructor; assumption].
Qed.

Lemma scan_digits_same (s t : str) :
  Forall2 same_letter s t ->
  forall prev_us acc, scan_digits s prev_us acc = scan_digits t prev_us acc.
Proof.
  induction 1 as [|c d s t Hcd Hst IH]; intros prev_us acc; [reflexivity|].
  cbn [scan_digits].
  rewrite (same_letter_eqb c d 95 Hcd), (same_letter_digit c d Hcd) by lia.
  destruct (d =? 95); [destruct prev_us; [reflexivity | apply IH]|].
  destruct (digit_value d); [apply IH | reflexivity].
Qed.

Lemma parse_literal_stages (s : str) :
  parse_literal s
  = literal_digits (fst (literal_sign s)) (literal_prefix (snd (literal_sign s))).
Proof.
  unfold parse_literal, literal_digits, literal_prefix.
  destruct (literal_sign s) as [sign s'] eqn:Hs. unfold literal_sign in Hs.
  rewrite Hs. reflexivity.
Qed.

Lemma literal_sign_same (s t : str) :
  Forall2 same_letter s t ->
  fst (literal_sign s) = fst (literal_sign t) /\
  Forall2 same_letter (snd (literal_sign s)) (snd (literal_sign t)).
Proof.
  intros Hst. destruct Hst as [|c d s t Hcd Hst]; cbn [literal_sign].
  - split; [reflexivity | constructor].
  - rewrite (same_letter_eqb c d 43 Hcd), (same_letter_eqb c d 45 Hcd) by lia.
    destruct (d =? 43); [split; [reflexivity | exact Hst]|].
    destruct (d =? 45); [split; [reflexivity | exact Hst]|].
    split; [reflexivity | constructor; assumption].
Qed.

Lemma literal_prefix_same (s t : str) :
  Forall2 same_letter s t ->
  Forall2 same_letter (literal_prefix s) (literal_prefix t).
Proof.
  intros Hst. destruct Hst as [|z z' s1 t1 Hz Hst1]; [constructor|].
  destruct Hst1 as [|x x' s2 t2 Hx Hst2]; cbn [literal_prefix].
  - repeat constructor. exact Hz.
  - rewrite (same_letter_eqb z z' 48 Hz), (same_letter_x x x' Hx) by lia.
    destruct ((z' =? 48) && ((x' =? 120) || (x' =? 88))).
    + destruct Hst2 as [|u u' s3 t3 Hu Hst3]; [constructor|].
      rewrite (same_letter_eqb u u' 95 Hu) by lia.
      destruct (u' =? 95); [exact Hst3 | constructor; assumption].
    + repeat (constructor; try assumption).
Qed.

Lemma literal_digits_same (sign : Z) (s t : str) :
  Forall2 same_letter s t -> literal_digits sign s = literal_digits sign t.
Proof.
  intros Hst. destruct Hst as [|c d s t Hcd Hst]; [reflexivity|].
  cbn [literal_digits]. rewrite (same_letter_eqb c d 95 Hcd) by lia.
  destruct (d =? 95); [reflexivity|].
  rewrite (scan_digits_same (c :: s) (d :: t)) by (constructor; assumption).
  reflexivity.
Qed.

Lemma parse_literal_same (s t : str) :
  Forall2 same_letter s t -> parse_literal s = parse_literal t.
Proof.
  intros Hst. rewrite !parse_literal_stages.
  destruct (literal_sign_same s t Hst) as [-> Hrest].
  apply literal_digits_same, literal_prefix_same, Hrest.
Qed.

Lemma int16_lower (h : str) :
  int16 unicode_decimal (map ascii_lower h) = int16 unicode_decimal h.
Proof.
  unfold int16. apply parse_literal_same.
  apply Forall2_reverse, skip_blanks_same, Forall2_reverse, skip_blanks_same.
  rewrite map_map. apply Forall2_fmap, Forall_Forall2_diag, Forall_forall.
  intros c _. apply int_to_ascii_lower.
Qed.

Lemma int16_all_lower (hex_vals : list str) :
  int16_all unicode_decimal (map (map ascii_lower) hex_vals)
  = int16_all unicode_decimal hex_vals.
Proof.
  induction hex_vals as [|h rest IH]; [reflexivity|].
  cbn [map int16_all]. rewrite int16_lower, IH. reflexivity.
Qed.

End CaseInsensitive.

Lemma decrypt_test_tokens_parse
    (unicode_decimal : Z -> option Z) (st : tables) (ciphertext ciphertext' : str) :
  int16_all unicode_decimal (str_split (str_strip ciphertext'))
  = int16_all unicode_decimal (str_split (str_strip ciphertext)) ->
  decrypt_test unicode_decimal st ciphertext'
  = decrypt_test unicode_decimal st ciphertext.
Proof. intros H. unfold decrypt_test. rewrite H. reflexivity. Qed.

(** X20. [decrypt_test] does not distinguish letter case: writing the
    letters of the ciphertext (hexadecimal digits and the [x] of a
    [0x] prefix) in lower case gives the same reply. *)
Theorem decrypt_test_ignores_case
    (unicode_decimal : Z -> option Z) (st : tables) (ciphertext : str) :
  decrypt_test unicode_decimal st (map ascii_lower ciphertext)
  = decrypt_test unicode_decimal st ciphertext.
Proof.
  apply decrypt_test_tokens_parse.
  rewrite !str_split_strip, str_split_lower. apply int16_all_lower.
Qed.

(** ** Negative constants *)

Lemma lxor_byte_negative (r c : Z) :
  is_byte r -> -256 <= c < 0 -> -256 <= Z.lxor r c < 0.
Proof.
  intros Hr Hc.
  replace c with (Z.lnot (- c - 1)) by (unfold Z.lnot; lia).
  rewrite <- Z.lnot_lxor_r.
  assert (Hb : is_byte (Z.lxor r (- c - 1)))
    by (apply lxor_byte; [exact Hr | unfold is_byte; lia]).
  unfold is_byte in Hb. unfold Z.lnot. lia.
Qed.

Lemma setitem_in_range {A : Type} (l : list A) (i : Z) (v : A) :
  - Z.of_nat (length l) <= i < Z.of_nat (length l) ->
  exists l', setitem l i v = Ok l' /\ length l' = length l.
Proof.
  intros Hi. unfold setitem, norm_index.
  destruct ((0 <=? i) && (i <? Z.of_nat (length l))) eqn:H1.
  - eexists. split; [reflexivity | apply length_insert].
  - destruct ((- Z.of_nat (length l) <=? i) && (i <? 0)) eqn:H2; [|lia].
    eexists. split; [reflexivity | apply length_insert].
Qed.

Lemma fill_inverse_in_range (vals : list Z) :
  Forall (fun v => -256 <= v < 256) vals ->
  forall i inv, length inv = 256%nat -> snd (fill_inverse i vals inv) = None.
Proof.
  induction 1 as [|val rest Hval _ IH]; intros i inv Hlen; cbn [fill_inverse].
  - reflexivity.
  - destruct (setitem_in_range inv val i) as (inv' & -> & Hlen').
    { rewrite Hlen. change (Z.of_nat 256) with 256. lia. }
    apply IH. rewrite Hlen'. exact Hlen.
Qed.

(** X21. A constant from -256 to -1 is not refused: with eight rows
    every generated entry lies in -256..-1, the writes of the inverse
    loop index the table from its end without failing, and
    [run_analysis] returns its report. *)
Theorem run_analysis_negative_constant
    (st : tables) (matrix : list Z) (constant : Z) :
  length matrix = 8%nat -> -256 <= constant < 0 ->
  exists sbox inv,
    generate_sbox_logic matrix constant = Ok sbox /\
    Forall (fun v => -256 <= v < 0) sbox /\
    run_analysis st matrix constant
    = (Return (Analysis (map format_02X sbox) metrics), Tables sbox inv).
Proof.
  intros Hlen Hc.
  destruct (sbox_loop_values matrix constant Hlen (range 256) [])
    as (sbox & Hgen & Hvals).
  cbn [app] in Hgen. fold (generate_sbox_logic matrix constant) in Hgen.
  assert (Hneg : Forall (fun v => -256 <= v < 0) sbox).
  { eapply Forall_impl; [exact Hvals|]. intros v (r & Hr & ->).
    apply lxor_byte_negative; assumption. }
  assert (Hfill : snd (build_inverse sbox) = None).
  { apply fill_inverse_in_range; [|apply length_replicate].
    eapply Forall_impl; [exact Hneg|]. intros v Hv. cbv beta in Hv. lia. }
  destruct (build_inverse sbox) as [inv err] eqn:Hinv. cbn [snd] in Hfill. subst err.
  exists sbox, inv. split; [exact Hgen|]. split; [exact Hneg|].
  unfold run_analysis. rewrite Hgen, Hinv. reflexivity.
Qed.

Lemma run_analysis_negative_constant_witness :
  exists sbox inv,
    generate_sbox_logic K44_MATRIX (-100) = Ok sbox /\
    Forall (fun v => -256 <= v < 0) sbox /\
    run_analysis initial_tables K44_MATRIX (-100)
    = (Return (Analysis (map format_02X sbox) metrics), Tables sbox inv).
Proof.
  apply (run_analysis_negative_constant initial_tables K44_MATRIX (-100)).
  - reflexivity.
  - lia.
Defined.
